(** * Bitbucket Dockerfile scanner (docker-scanner.py): model and properties

    A shallow embedding of [BitbucketDockerScanner]: the FROM-line extractor
    ([extract_base_images]), the listing loops ([get_projects],
    [get_repositories], [search_dockerfiles]), [get_file_content] and the
    driver [scan].

    Conventions.
    - A Python [str] is a [string]; a character is a code point below 256.
      The character classes below are Python's on that range.
    - A Python [set] of [str] is a [gset string].
    - [self.session.get] is a function of the request and of the state of the
      remote side; a raised [RequestException] (also from
      [raise_for_status]) is the answer [None].
    - A [while] loop takes fuel; running out of fuel ([None]) stands for a
      loop that does not return.
    - An answer that arrives is well formed: its body decodes to an object,
      [values] is a list, and every project has a ['key'] and every
      repository a ['slug'].
    - [print] calls write diagnostics only and are left out. *)

From Stdlib Require Import String Ascii NArith ZArith List Bool.
From stdpp Require Import base option list gmap strings sorting.

Local Open Scope string_scope.
Local Open Scope list_scope.

(** ** Characters and strings *)

Module Str.

(** [ch.isspace()], which is also what [\s] matches in a [str] pattern and
    what [str.strip()] removes: 9-13, 28-32, 0x85, 0xA0. *)
Definition isspace (c : ascii) : bool :=
  let n := N_of_ascii c in
  (((9 <=? n) && (n <=? 13)) || ((28 <=? n) && (n <=? 32))
   || (n =? 133) || (n =? 160))%N.

(** [ch.isupper()]: A-Z, and the capital letters of Latin-1
    (0xC0-0xD6, 0xD8-0xDE). *)
Definition isupper (c : ascii) : bool :=
  let n := N_of_ascii c in
  (((65 <=? n) && (n <=? 90)) || ((192 <=? n) && (n <=? 214))
   || ((216 <=? n) && (n <=? 222)))%N.

(** Case folding of a pattern character under [re.IGNORECASE]; the pattern
    of the scanner has ASCII characters only. *)
Definition casefold (c : ascii) : ascii :=
  let n := N_of_ascii c in
  if ((65 <=? n) && (n <=? 90))%N then ascii_of_N (n + 32) else c.

Definition chars (s : string) : list ascii := list_ascii_of_string s.

(** [ch in s] for a one-character [ch]. *)
Definition contains (ch : ascii) (s : string) : bool :=
  existsb (Ascii.eqb ch) (chars s).

(** [any(c.isupper() for c in s)] *)
Definition any_upper (s : string) : bool := existsb isupper (chars s).

(** [s.startswith(p)] *)
Fixpoint startswith (p s : string) : bool :=
  match p, s with
  | EmptyString, _ => true
  | String a p', String b s' => Ascii.eqb a b && startswith p' s'
  | String _ _, EmptyString => false
  end.

Fixpoint lstrip (s : string) : string :=
  match s with
  | String c s' => if isspace c then lstrip s' else s
  | EmptyString => EmptyString
  end.

Definition rev (s : string) : string :=
  string_of_list_ascii (List.rev (chars s)).

Definition rstrip (s : string) : string := rev (lstrip (rev s)).

(** [s.strip()] *)
Definition strip (s : string) : string := rstrip (lstrip s).

(** [s.split(sep)] for a one-character [sep]: never the empty list. *)
Fixpoint split (sep : ascii) (s : string) : list string :=
  match s with
  | EmptyString => [EmptyString]
  | String c s' =>
      if Ascii.eqb c sep then EmptyString :: split sep s'
      else match split sep s' with
           | h :: t => String c h :: t
           | [] => [String c EmptyString]
           end
  end.

(** [s[:n]] *)
Fixpoint take (n : nat) (s : string) : string :=
  match n, s with
  | S n', String c s' => String c (take n' s')
  | _, _ => EmptyString
  end.

(** [base_url.rstrip('/')] *)
Fixpoint lstrip_char (ch : ascii) (s : string) : string :=
  match s with
  | String c s' => if Ascii.eqb c ch then lstrip_char ch s' else s
  | EmptyString => EmptyString
  end.

Definition rstrip_char (ch : ascii) (s : string) : string :=
  rev (lstrip_char ch (rev s)).

(** [all(p(c) for c in s)] *)
Definition all (p : ascii -> bool) (s : string) : bool :=
  forallb p (chars s).

(** [s] with every character case-folded as [casefold] does. *)
Fixpoint lower (s : string) : string :=
  match s with
  | EmptyString => EmptyString
  | String c s' => String (casefold c) (lower s')
  end.

(** [s] is empty or its first character is not in [p]: a greedy run of [p]
    cannot go on into [s]. *)
Definition stops (p : ascii -> bool) (s : string) : bool :=
  match s with
  | EmptyString => true
  | String c _ => negb (p c)
  end.

(** [ch * n] *)
Fixpoint repeat (ch : ascii) (n : nat) : string :=
  match n with
  | O => EmptyString
  | S n' => String ch (repeat ch n')
  end.

End Str.

(** ** The part of [re] that the FROM pattern uses

    A backtracking matcher in continuation-passing style: greedy repetition
    tries the longest run first and gives characters back one at a time; an
    optional group is tried before it is skipped. *)

Module Re.

Inductive cclass := Space | NotSpace.

Inductive regex :=
| Bol                          (* ^ *)
| Lit (l : string)             (* literal text *)
| Star (c : cclass)            (* c* *)
| Plus (c : cclass)            (* c+ *)
| Cat (r1 r2 : regex)
| Opt (r : regex)              (* (?:r)? *)
| Group (r : regex).           (* (r), group 1 *)

Definition in_class (c : cclass) (a : ascii) : bool :=
  match c with
  | Space => Str.isspace a
  | NotSpace => negb (Str.isspace a)
  end.

Definition lit_eqb (ignorecase : bool) (a b : ascii) : bool :=
  if ignorecase then Ascii.eqb (Str.casefold a) (Str.casefold b)
  else Ascii.eqb a b.

(** Remove the literal [l] from the front of [s]. *)
Fixpoint eat (ignorecase : bool) (l s : string) : option string :=
  match l, s with
  | EmptyString, _ => Some s
  | String a l', String b s' =>
      if lit_eqb ignorecase a b then eat ignorecase l' s' else None
  | String _ _, EmptyString => None
  end.

Section Matcher.
Context {R : Type}.

Fixpoint star (p : ascii -> bool) (s : string)
    (k : string -> option R) : option R :=
  match s with
  | String c s' =>
      if p c then
        match star p s' k with
        | Some r => Some r
        | None => k s
        end
      else k s
  | EmptyString => k s
  end.

Definition plus (p : ascii -> bool) (s : string)
    (k : string -> option R) : option R :=
  match s with
  | String c s' => if p c then star p s' k else None
  | EmptyString => None
  end.

(** [whole] is the subject, [s] what is left of it, [g] group 1 so far. *)
Fixpoint bt (ignorecase : bool) (whole : string) (r : regex) (s : string)
    (g : option string)
    (k : string -> option string -> option R) : option R :=
  match r with
  | Bol =>
      if Nat.eqb (String.length s) (String.length whole) then k s g
      else None
  | Lit l =>
      match eat ignorecase l s with
      | Some s' => k s' g
      | None => None
      end
  | Star c => star (in_class c) s (fun s' => k s' g)
  | Plus c => plus (in_class c) s (fun s' => k s' g)
  | Cat r1 r2 =>
      bt ignorecase whole r1 s g
         (fun s' g' => bt ignorecase whole r2 s' g' k)
  | Opt r' =>
      match bt ignorecase whole r' s g k with
      | Some x => Some x
      | None => k s g
      end
  | Group r' =>
      bt ignorecase whole r' s g
         (fun s' _ =>
            k s' (Some (Str.take (String.length s - String.length s') s)))
  end.
End Matcher.

(** A match object, reduced to [m.group(1)]: [None] when the group took no
    part in the match. *)
Record match_object := { group1 : option string }.

(** [re.match(pattern, s, flags)]: anchored at the start of [s]. *)
Definition re_match (pattern : regex) (s : string) (ignorecase : bool)
    : option match_object :=
  bt ignorecase s pattern s None (fun _ g => Some {| group1 := g |}).

(** What the expressions mean, without the search order: [matches ic whole
    r s g s' g'] says that [r] can take a prefix off [s], leaving [s'], and
    turn group 1 from [g] into [g']. *)
Inductive matches (ic : bool) (whole : string)
  : regex -> string -> option string -> string -> option string -> Prop :=
| m_bol s g :
    String.length s = String.length whole -> matches ic whole Bol s g s g
| m_lit l s s' g :
    eat ic l s = Some s' -> matches ic whole (Lit l) s g s' g
| m_star c t s g :
    Str.all (in_class c) t = true ->
    matches ic whole (Star c) (t +:+ s) g s g
| m_plus c t s g :
    t <> EmptyString -> Str.all (in_class c) t = true ->
    matches ic whole (Plus c) (t +:+ s) g s g
| m_cat r1 r2 s g s1 g1 s2 g2 :
    matches ic whole r1 s g s1 g1 -> matches ic whole r2 s1 g1 s2 g2 ->
    matches ic whole (Cat r1 r2) s g s2 g2
| m_opt_skip r s g : matches ic whole (Opt r) s g s g
| m_opt_take r s g s' g' :
    matches ic whole r s g s' g' -> matches ic whole (Opt r) s g s' g'
| m_group r s g s' g' :
    matches ic whole r s g s' g' ->
    matches ic whole (Group r) s g s'
      (Some (Str.take (String.length s - String.length s') s)).

(** No group anywhere in [r]. *)
Fixpoint group_free (r : regex) : bool :=
  match r with
  | Group _ => false
  | Cat r1 r2 => group_free r1 && group_free r2
  | Opt r' => group_free r'
  | _ => true
  end.

(** Group 1 lies on every path through [r]. *)
Fixpoint binds_group (r : regex) : bool :=
  match r with
  | Group _ => true
  | Cat r1 r2 => binds_group r1 || binds_group r2
  | _ => false
  end.

Fixpoint cats (rs : list regex) : regex :=
  match rs with
  | [] => Lit EmptyString
  | [r] => r
  | r :: rs' => Cat r (cats rs')
  end.

End Re.

(** ** extract_base_images *)

(** [r'^\s*FROM\s+(?:--platform=[^\s]+\s+)?([^\s]+)(?:\s+AS\s+[^\s]+)?'] *)
Definition pattern : Re.regex :=
  Re.cats
    [ Re.Bol; Re.Star Re.Space; Re.Lit "FROM"; Re.Plus Re.Space;
      Re.Opt (Re.cats [Re.Lit "--platform="; Re.Plus Re.NotSpace;
                       Re.Plus Re.Space]);
      Re.Group (Re.Plus Re.NotSpace);
      Re.Opt (Re.cats [Re.Plus Re.Space; Re.Lit "AS"; Re.Plus Re.Space;
                       Re.Plus Re.NotSpace]) ].

(** The three-way test on the captured token: [true] when the token is added
    to [images]. Python reads the first condition as
    [((not image.startswith('$')) and ':' in image) or '/' in image
     or '@' in image]. *)
Definition keeps (image : string) : bool :=
  if (negb (Str.startswith "$" image) && Str.contains ":" image)
     || Str.contains "/" image || Str.contains "@" image
  then true
  else if negb (Str.any_upper image) && negb (Str.contains ":" image)
  then false
  else true.

(** [line.strip().startswith('#')] *)
Definition is_comment (line : string) : bool :=
  Str.startswith "#" (Str.strip line).

(** The body of the [for line in ...] loop. *)
Definition scan_line (images : gset string) (line : string) : gset string :=
  if is_comment line then images
  else
    match Re.re_match pattern line true with
    | Some m =>
        match Re.group1 m with
        | Some image => if keeps image then images ∪ {[ image ]} else images
        | None => images
        end
    | None => images
    end.

Definition newline : ascii := ascii_of_N 10.

Definition extract_lines (lines : list string) : gset string :=
  fold_left scan_line lines ∅.

(** [line] is a FROM line whose group 1 is [image]. *)
Definition captured (line image : string) : Prop :=
  is_comment line = false
  ∧ Re.re_match pattern line true = Some {| Re.group1 := Some image |}.

(** [image] is captured on some line of [content]. *)
Definition captured_in (content image : string) : Prop :=
  ∃ line, line ∈ Str.split newline content ∧ captured line image.

Definition has_delimiter (image : string) : bool :=
  Str.contains ":" image || Str.contains "/" image || Str.contains "@" image.

(** ** The form of a FROM line *)

(** A token: not empty, no whitespace in it. *)
Definition is_token (t : string) : Prop :=
  t ≠ "" ∧ Str.all (Re.in_class Re.NotSpace) t = true.

(** Whitespace between two parts of the line: at least one character. *)
Definition is_gap (sp : string) : Prop :=
  sp ≠ "" ∧ Str.all Str.isspace sp = true.

(** Nothing, or [--platform=] in any letter case, a value and a gap. *)
Definition platform_flag (flag : string) : Prop :=
  flag = ""
  ∨ ∃ pf v sp, flag = pf +:+ v +:+ sp
               ∧ Str.lower pf = "--platform="
               ∧ is_token v ∧ is_gap sp.

(** [line] reads: whitespace, [FROM] in any letter case, a gap, the
    optional platform flag, the token [image], and the rest. *)
Definition from_line (line image : string) : Prop :=
  ∃ ws kw sp flag rest,
    line = ws +:+ kw +:+ sp +:+ flag +:+ image +:+ rest
    ∧ Str.all Str.isspace ws = true
    ∧ Str.lower kw = "from"
    ∧ is_gap sp
    ∧ platform_flag flag
    ∧ is_token image.

(** ** The remote side *)

(** The decoded body of a listing answer: [data.get('values')],
    [data.get('isLastPage')], [data.get('nextPageStart')]; a key that is
    absent is [None]. An item of [values] is kept as the one field the
    scanner reads: the ['key'] of a project, the ['slug'] of a repository, a
    file path. [nextPageStart] is kept as the text its formatting gives. *)
Record page := Page {
  values : option (list string);
  isLastPage : option bool;
  nextPageStart : option string
}.

(** An answer: [response.json()] and [response.text]. *)
Record response := Response { json : page; text : string }.

(** A request: the URL and the [params] of [session.get]. *)
Definition request : Type := string * list (string * Z).

(** [d.get(k, default)], once the key is looked up. *)
Definition or_default {A} (d : A) (o : option A) : A :=
  match o with Some a => a | None => d end.

Definition limit (n : Z) : list (string * Z) := [("limit", n)].

(** [data.get('values', [])] of an answer; nothing for a failed request. *)
Definition listed (r : option response) : list string :=
  match r with
  | Some resp => or_default [] (values (json resp))
  | None => []
  end.

(** What [get_file_content] returns for an answer. *)
Definition fetched (r : option response) : string :=
  match r with
  | Some resp => text resp
  | None => ""
  end.

Section Scanner.

(** The state of the remote side. *)
Context {W : Type}.

(** [self.session.get(url, params=...)] with [raise_for_status()]:
    [None] is a raised [RequestException]. *)
Variable send : request -> W -> option response * W.

Record Scanner := MkScanner {
  base_url : string;
  session : W;
  base_images : gset string
}.

(** [__init__] *)
Definition init (url : string) (w : W) : Scanner :=
  {| base_url := Str.rstrip_char "/" url; session := w; base_images := ∅ |}.

(** Computations on the scanner; [None]: out of fuel. *)
Definition M (A : Type) : Type := Scanner -> option (A * Scanner).

Definition ret {A} (a : A) : M A := fun self => Some (a, self).

Definition bind {A B} (m : M A) (f : A -> M B) : M B :=
  fun self =>
    match m self with
    | Some (a, self') => f a self'
    | None => None
    end.

Definition diverge {A} : M A := fun _ => None.

Definition url_of {A} (f : string -> M A) : M A :=
  fun self => f (base_url self) self.

(** [self] after the remote side has moved to [w]. *)
Definition with_session (self : Scanner) (w : W) : Scanner :=
  {| base_url := base_url self; session := w;
     base_images := base_images self |}.

Definition session_get (url : string) (params : list (string * Z))
    : M (option response) :=
  fun self =>
    let '(r, w) := send (url, params) (session self) in
    Some (r, with_session self w).

(** [self.base_images.update(images)] *)
Definition update_base_images (images : gset string) : M unit :=
  fun self =>
    Some (tt, {| base_url := base_url self; session := session self;
                 base_images := base_images self ∪ images |}).

Notation "x <- m ;; k" := (bind m (fun x => k))
  (at level 100, m at next level, right associativity).

Fixpoint for_each {A} (xs : list A) (body : A -> M unit) : M unit :=
  match xs with
  | [] => ret tt
  | x :: xs' => _ <- body x ;; for_each xs' body
  end.

(** *** extract_base_images *)

(** [self] is neither read nor written; [images] starts empty on every
    call. *)
Definition extract_base_images (self : Scanner)
    (dockerfile_content : string) : gset string :=
  extract_lines (Str.split newline dockerfile_content).

(** *** get_projects *)

Definition projects_url (base : string) : string :=
  base +:+ "/rest/api/1.0/projects".

Fixpoint get_projects_loop (fuel : nat) (url : string)
    (projects : list string) : M (list string) :=
  match url with
  | EmptyString => ret projects
  | _ =>
      match fuel with
      | O => diverge
      | S fuel' =>
          r <- session_get url [] ;;
          match r with
          | None => ret projects
          | Some resp =>
              let data := json resp in
              let projects := projects ++ or_default [] (values data) in
              if or_default true (isLastPage data) then ret projects
              else
                url_of (fun base =>
                  get_projects_loop fuel'
                    (base +:+ or_default "" (nextPageStart data)) projects)
          end
      end
  end.

Definition truthy {A} (o : option (list A)) : bool :=
  match o with
  | Some (_ :: _) => true
  | _ => false
  end.

Definition get_projects (fuel : nat) (project_keys : option (list string))
    : M (list string) :=
  if truthy project_keys then ret (or_default [] project_keys)
  else url_of (fun base => get_projects_loop fuel (projects_url base) []).

(** *** get_repositories *)

Definition repos_url (base project_key : string) : string :=
  base +:+ "/rest/api/1.0/projects/" +:+ project_key +:+ "/repos".

Fixpoint get_repositories_loop (fuel : nat) (project_key url : string)
    (repositories : list string) : M (list string) :=
  match url with
  | EmptyString => ret repositories
  | _ =>
      match fuel with
      | O => diverge
      | S fuel' =>
          r <- session_get url [("limit", 100%Z)] ;;
          match r with
          | None => ret repositories
          | Some resp =>
              let data := json resp in
              let repositories :=
                repositories ++ or_default [] (values data) in
              if or_default true (isLastPage data) then ret repositories
              else
                url_of (fun base =>
                  get_repositories_loop fuel' project_key
                    (repos_url base project_key) repositories)
          end
      end
  end.

Definition get_repositories (fuel : nat) (project_key : string)
    : M (list string) :=
  url_of (fun base =>
    get_repositories_loop fuel project_key (repos_url base project_key) []).

(** *** search_dockerfiles *)

Definition files_url (base project_key repo_slug : string) : string :=
  base +:+ "/rest/api/1.0/projects/" +:+ project_key +:+ "/repos/"
    +:+ repo_slug +:+ "/files".

(** [file_path.split('/')[-1]] *)
Definition file_name (file_path : string) : string :=
  List.last (Str.split "/" file_path) EmptyString.

Definition is_dockerfile (file_path : string) : bool :=
  let file_name := file_name file_path in
  String.eqb file_name "Dockerfile"
  || Str.startswith "Dockerfile." file_name
  || String.eqb file_name "dockerfile"
  || Str.startswith "dockerfile." file_name.

(** One turn of [for pattern in search_patterns]; [pattern] is not used by
    the body. *)
Definition search_pass (project_key repo_slug : string)
    (dockerfiles : list string) (pattern : string) : M (list string) :=
  url_of (fun base =>
    r <- session_get (files_url base project_key repo_slug)
                    [("limit", 1000%Z)] ;;
    match r with
    | Some resp =>
        ret (dockerfiles
             ++ List.filter is_dockerfile
                  (or_default [] (values (json resp))))
    | None => ret dockerfiles
    end).

Fixpoint fold_m {A B} (f : B -> A -> M B) (xs : list A) (b : B) : M B :=
  match xs with
  | [] => ret b
  | x :: xs' => b' <- f b x ;; fold_m f xs' b'
  end.

(** [list(set(dockerfiles))]: Python leaves the order of the result
    open; the model takes the order of [elements]. *)
Definition list_of_set (l : list string) : list string :=
  elements (list_to_set l : gset string).

Definition search_dockerfiles (project_key repo_slug : string)
    : M (list string) :=
  dockerfiles <-
    fold_m (search_pass project_key repo_slug)
           ["Dockerfile"; "dockerfile"] [] ;;
  ret (list_of_set dockerfiles).

(** *** get_file_content *)

Definition raw_url (base project_key repo_slug file_path : string)
    : string :=
  base +:+ "/rest/api/1.0/projects/" +:+ project_key +:+ "/repos/"
    +:+ repo_slug +:+ "/raw/" +:+ file_path.

Definition get_file_content (project_key repo_slug file_path : string)
    : M string :=
  url_of (fun base =>
    r <- session_get (raw_url base project_key repo_slug file_path) [] ;;
    match r with
    | Some resp => ret (text resp)
    | None => ret ""
    end).

(** *** scan *)

Definition scan_file (project_key repo_slug dockerfile_path : string)
    : M unit :=
  content <- get_file_content project_key repo_slug dockerfile_path ;;
  match content with
  | EmptyString => ret tt
  | _ =>
      fun self =>
        update_base_images (extract_base_images self content) self
  end.

Definition scan_repo (project_key repo_slug : string) : M unit :=
  dockerfiles <- search_dockerfiles project_key repo_slug ;;
  match dockerfiles with
  | [] => ret tt
  | _ => for_each dockerfiles (scan_file project_key repo_slug)
  end.

Definition scan_project (fuel : nat) (project_key : string) : M unit :=
  repositories <- get_repositories fuel project_key ;;
  for_each repositories (scan_repo project_key).

(** [scan] returns [self.base_images], the accumulator itself. *)
Definition scan (fuel : nat) (project_keys : option (list string))
    : M (gset string) :=
  projects <- get_projects fuel project_keys ;;
  _ <- for_each projects (scan_project fuel) ;;
  fun self => Some (base_images self, self).

(** *** What a method leaves of [self] *)

(** [self.base_url] and [self.base_images] are as before. *)
Definition same_self (s s' : Scanner) : Prop :=
  base_url s' = base_url s ∧ base_images s' = base_images s.

(** [self.base_images] has lost nothing. *)
Definition grows (s s' : Scanner) : Prop :=
  base_url s' = base_url s ∧ base_images s ⊆ base_images s'.

Definition Frame {A} (m : M A) : Prop :=
  ∀ s a s', m s = Some (a, s') → same_self s s'.

Definition Mono {A} (m : M A) : Prop :=
  ∀ s a s', m s = Some (a, s') → grows s s'.

(** [self] holding the images [images] instead of its own. *)
Definition with_images (self : Scanner) (images : gset string) : Scanner :=
  {| base_url := base_url self; session := session self;
     base_images := images |}.

(** Every run of [m] takes [self] to a scanner that [P] relates to it. *)
Definition Keeps {A} (P : Scanner -> Scanner -> Prop) (m : M A) : Prop :=
  ∀ s a s', m s = Some (a, s') → P s s'.

(** [m] does not look at the images held: started with the images [X]
    instead of none, it returns the same, leaves the remote side the same,
    and adds the same images. *)
Definition Blind {A} (m : M A) : Prop :=
  ∀ s X,
    m (with_images s X)
    = match m (with_images s ∅) with
      | Some (a, s0) => Some (a, with_images s0 (X ∪ base_images s0))
      | None => None
      end.

(** The walk of [scan], before it returns [self.base_images]. *)
Definition walk (fuel : nat) (project_keys : option (list string))
    : M unit :=
  projects <- get_projects fuel project_keys ;;
  for_each projects (scan_project fuel).

(** *** The run of a listing loop *)

(** [reads params next url w pages w']: starting at [url] with the remote
    side in [w], the requests of a listing loop that goes from an answer
    [data] to the URL [next data] come to an end with the remote side in
    [w']; [pages] has the items of each answer in turn, none for a request
    that failed. The run ends at an empty URL, at a failed request, or at
    an answer whose last-page flag is true or absent. *)
Inductive reads (params : list (string * Z)) (next : page -> string)
  : string -> W -> list (list string) -> W -> Prop :=
| reads_done w : reads params next EmptyString w [] w
| reads_fail url w :
    url <> EmptyString -> (send (url, params) w).1 = None ->
    reads params next url w [[]] (send (url, params) w).2
| reads_last url w resp w' :
    url <> EmptyString -> send (url, params) w = (Some resp, w') ->
    or_default true (isLastPage (json resp)) = true ->
    reads params next url w [or_default [] (values (json resp))] w'
| reads_next url w resp w' pages w'' :
    url <> EmptyString -> send (url, params) w = (Some resp, w') ->
    or_default true (isLastPage (json resp)) = false ->
    reads params next (next (json resp)) w' pages w'' ->
    reads params next url w
      (or_default [] (values (json resp)) :: pages) w''.

(** Where [get_projects] goes after the answer [data]. *)
Definition next_projects (base : string) (data : page) : string :=
  base +:+ or_default "" (nextPageStart data).

(** Where [get_repositories] goes after any answer. *)
Definition next_repositories (base project_key : string) (data : page)
    : string :=
  repos_url base project_key.

(** *** Kinds of remote side *)

(** The answer depends on the request alone. *)
Definition request_determined : Prop :=
  ∀ req w w', (send req w).1 = (send req w').1.

(** Requests leave the remote side as it was. *)
Definition unchanging : Prop := ∀ req w, (send req w).2 = w.

End Scanner.

Arguments Scanner : clear implicits.
Arguments MkScanner {W}.

(** ** The Dockerfile naming convention *)

(** [seg] is the part of [path] after its last [/]. *)
Definition final_segment (path seg : string) : Prop :=
  Str.contains "/" seg = false
  ∧ (path = seg ∨ ∃ dir, path = dir +:+ String "/" seg).

(** The names the locator accepts. *)
Definition dockerfile_name (seg : string) : Prop :=
  seg = "Dockerfile" ∨ seg = "dockerfile"
  ∨ (∃ rest, seg = "Dockerfile." +:+ rest)
  ∨ (∃ rest, seg = "dockerfile." +:+ rest).

(** * A small Bitbucket *)

(** A remote side without state: a table from requests to answers; a
    request that is not in the table fails. Listings are paged by a [start]
    parameter, as Bitbucket Server does; the project listing also gives the
    path of its next page. *)
Module Demo.

Definition base : string := "https://bitbucket.example.com".

Definition api (path : string) : string := base +:+ "/rest/api/1.0" +:+ path.

Definition listing (vs : list string) (last : bool) (next : option string)
    : response :=
  {| json := {| values := Some vs; isLastPage := Some last;
                nextPageStart := next |};
     text := "" |}.

Definition raw (content : string) : response :=
  {| json := {| values := None; isLastPage := None; nextPageStart := None |};
     text := content |}.

Definition from (start : Z) (n : Z) : list (string * Z) :=
  [("limit", n); ("start", start)].

Definition routes : list (request * response) :=
  [ ((api "/projects", []),
       listing ["P1"; "P2"] false (Some "/rest/api/1.0/projects?start=2"));
    ((api "/projects?start=2", []),
       listing ["P3"] false (Some "/rest/api/1.0/projects?start=3"));
    ((api "/projects?start=3", []), listing ["P4"; "P5"] true None);
    ((api "/projects/P1/repos", limit 100), listing ["app"] true None);
    ((api "/projects/P3/repos", limit 100),
       listing ["r1"; "r2"] false (Some "2"));
    ((api "/projects/P3/repos", from 2 100),
       listing ["r3"] false (Some "3"));
    ((api "/projects/P3/repos", from 3 100), listing ["r4"; "r5"] true None);
    ((api "/projects/P4/repos", limit 100), listing ["svc"] true None);
    ((api "/projects/P1/repos/app/files", limit 1000),
       listing ["Dockerfile"; "src/main.py"; "docker/Dockerfile.prod";
                "ci/dockerfile.ci"; "DockerfileFoo"] false (Some "5"));
    ((api "/projects/P1/repos/app/files", from 5 1000),
       listing ["deploy/Dockerfile"] true None);
    ((api "/projects/P4/repos/svc/files", limit 1000),
       listing ["Dockerfile"] true None);
    ((api "/projects/P1/repos/app/raw/Dockerfile", []),
       raw "FROM node:18 AS build
FROM build AS test
FROM node:18-slim");
    ((api "/projects/P1/repos/app/raw/ci/dockerfile.ci", []), raw "");
    ((api "/projects/P4/repos/svc/raw/Dockerfile", []),
       raw "FROM --platform=linux/amd64 golang:1.21 AS builder") ].

Definition site (req : request) (w : unit) : option response * unit :=
  (snd <$> List.find (fun e => bool_decide (fst e = req)) routes, w).

(** [BitbucketDockerScanner('https://bitbucket.example.com/', ...)] *)
Definition scanner0 : Scanner unit := init (base +:+ "/") tt.

End Demo.

(** * The report of [main] *)

(** The part of [main] after the scan that builds the text: the sorted
    list, the lines joined by newlines, and what is written to the output
    file. The banner and the calls that print or write are left out. *)
Module Report.

(** [sorted(base_images)]: ascending, strings compared character by
    character by code point. The order in which Python walks the set is
    open; the model walks it in the order of [elements]. *)
Definition sorted_images (base_images : gset string) : list string :=
  merge_sort String.le (elements base_images).

(** ["\n".join(output_lines)] *)
Definition output_text (base_images : gset string) : string :=
  String.concat (String newline EmptyString) (sorted_images base_images).

(** What [f.write(output_text + "\n")] writes. *)
Definition written (base_images : gset string) : string :=
  output_text base_images +:+ String newline EmptyString.

End Report.

(** * Properties of the string operations *)

Lemma split_not_nil sep s : Str.split sep s ≠ [].
Proof.
  destruct s as [|c s]; simpl; [done|].
  destruct (Ascii.eqb c sep); [done|]. by destruct (Str.split sep s).
Qed.

Lemma contains_cons ch c s :
  Str.contains ch (String c s) = Ascii.eqb ch c || Str.contains ch s.
Proof. reflexivity. Qed.

Lemma split_no_sep sep s :
  Str.contains sep s = false → Str.split sep s = [s].
Proof.
  induction s as [|c s IH]; [done|].
  rewrite contains_cons. intros [Hc Hs]%orb_false_iff. simpl.
  rewrite Ascii.eqb_sym, Hc. by rewrite (IH Hs).
Qed.

Lemma split_app sep d t :
  Str.split sep (d +:+ String sep t) = Str.split sep d ++ Str.split sep t.
Proof.
  induction d as [|c d IH]; simpl.
  - by rewrite Ascii.eqb_refl.
  - rewrite IH. destruct (Ascii.eqb c sep); [done|].
    pose proof (split_not_nil sep d).
    by destruct (Str.split sep d).
Qed.

Lemma split_singleton sep s x :
  Str.split sep s = [x] → s = x ∧ Str.contains sep x = false.
Proof.
  revert x. induction s as [|c s IH]; intros x; simpl.
  - by intros [= <-].
  - destruct (Ascii.eqb c sep) eqn:Hc.
    + intros [= _ H]. by apply split_not_nil in H.
    + pose proof (split_not_nil sep s).
      destruct (Str.split sep s) as [|h t]; [done|].
      intros [= <- ->]. destruct (IH h eq_refl) as [-> Hh].
      split; [done|]. by rewrite contains_cons, Ascii.eqb_sym, Hc.
Qed.

Lemma last_cons_cons {A} (x y : A) l d :
  List.last (x :: y :: l) d = List.last (y :: l) d.
Proof. reflexivity. Qed.

Lemma last_app_not_nil {A} (l1 l2 : list A) d :
  l2 ≠ [] → List.last (l1 ++ l2) d = List.last l2 d.
Proof.
  intros H. induction l1 as [|x l1 IH]; [done|].
  simpl app. destruct (l1 ++ l2) eqn:E.
  - apply app_eq_nil in E as [_ ?]. done.
  - rewrite last_cons_cons. done.
Qed.

Lemma startswith_spec p s :
  Str.startswith p s = true ↔ ∃ rest, s = p +:+ rest.
Proof.
  revert s. induction p as [|a p IH]; intros s; simpl.
  - split; [by exists s|done].
  - destruct s as [|b s].
    + split; [done|]. by intros [rest ?].
    + rewrite andb_true_iff, IH. split.
      * intros [->%Ascii.eqb_eq [rest ->]]. by exists rest.
      * intros [rest [= -> ->]]. split; [apply Ascii.eqb_refl|by exists rest].
Qed.

(** * Properties of the matcher *)

Lemma star_inv {R} p s (k : string → option R) m :
  Re.star p s k = Some m → ∃ s', k s' = Some m.
Proof.
  induction s as [|c s IH]; simpl; [by exists ""|].
  destruct (p c); [|by exists (String c s)].
  destruct (Re.star p s k) eqn:E; [|by exists (String c s)].
  intros [= ->]. by apply IH.
Qed.

Lemma plus_inv {R} p s (k : string → option R) m :
  Re.plus p s k = Some m → ∃ s', k s' = Some m.
Proof.
  destruct s as [|c s]; simpl; [done|].
  destruct (p c); [apply star_inv|done].
Qed.

(** A successful match ends in its continuation; group 1 is never unset on
    the way and is set when the expression binds it. *)
Lemma bt_inv {R} ic whole r :
  ∀ s g (k : string → option string → option R) m,
    Re.bt ic whole r s g k = Some m →
    ∃ s' g', k s' g' = Some m
             ∧ (is_Some g → is_Some g')
             ∧ (Re.binds_group r = true → is_Some g').
Proof.
  induction r as [|l|c|c|r1 IH1 r2 IH2|r IH|r IH]; intros s g k m; simpl.
  - destruct (Nat.eqb _ _); [|done]. intros E. by exists s, g.
  - destruct (Re.eat ic l s) as [s'|]; [|done]. intros E. by exists s', g.
  - intros [s' E]%star_inv. by exists s', g.
  - intros [s' E]%plus_inv. by exists s', g.
  - intros (s1 & g1 & E & Hg1 & Hb1)%IH1.
    apply IH2 in E as (s2 & g2 & E & Hg2 & Hb2).
    exists s2, g2. split; [done|]. split; [tauto|].
    intros [?|?]%orb_true_iff; tauto.
  - destruct (Re.bt ic whole r s g k) eqn:E.
    + intros [= ->]. apply IH in E as (s' & g' & E & Hg & _).
      by exists s', g'.
    + intros E'. by exists s, g.
  - intros (s' & g' & E & _ & _)%IH. eexists _, _. split; [exact E|].
    split; eauto.
Qed.

(** A match of the FROM pattern always has its group 1. *)
Lemma pattern_group1 line m :
  Re.re_match pattern line true = Some m → is_Some (Re.group1 m).
Proof.
  unfold Re.re_match. intros (s' & g' & [= <-] & _ & Hb)%bt_inv.
  by apply Hb.
Qed.

(** * Properties of the extractor *)

Lemma elem_of_scan_line images line x :
  x ∈ scan_line images line
  ↔ x ∈ images ∨ (captured line x ∧ keeps x = true).
Proof.
  unfold scan_line, captured.
  destruct (is_comment line).
  { split; [tauto|]. by intros [?|[[? _] _]]. }
  destruct (Re.re_match pattern line true) as [[[image|]]|].
  - simpl. destruct (keeps image) eqn:Hk.
    + rewrite elem_of_union, elem_of_singleton. split.
      * intros [?| ->]; [tauto|]. by right.
      * intros [?|[[_ ?] _]]; [tauto|]. right. congruence.
    + split; [tauto|]. intros [?|[[_ ?] ?]]; [done|]. congruence.
  - split; [tauto|]. by intros [?|[[_ ?] _]].
  - split; [tauto|]. by intros [?|[[_ ?] _]].
Qed.

Lemma elem_of_fold_scan_line lines images x :
  x ∈ fold_left scan_line lines images
  ↔ x ∈ images ∨ ∃ line, line ∈ lines ∧ captured line x ∧ keeps x = true.
Proof.
  revert images. induction lines as [|l lines IH]; intros images; simpl.
  - split; [tauto|]. intros [?|(line & Hin & _)]; [done|].
    by apply elem_of_nil in Hin.
  - rewrite IH, elem_of_scan_line. split.
    + intros [[?|[? ?]]|(line & ? & ? & ?)]; [tauto| |].
      * right. exists l. split; [constructor|done].
      * right. exists line. split; [by constructor|done].
    + intros [?|(line & Hin & ? & ?)]; [tauto|].
      apply elem_of_cons in Hin as [-> |?]; [tauto|].
      right. by exists line.
Qed.

Lemma elem_of_extract_base_images {W} (self : Scanner W) content x :
  x ∈ extract_base_images self content
  ↔ captured_in content x ∧ keeps x = true.
Proof.
  unfold extract_base_images, extract_lines, captured_in.
  rewrite elem_of_fold_scan_line. split.
  - intros [H|(line & ? & ? & ?)]; [by apply not_elem_of_empty in H|].
    split; [by exists line|done].
  - intros [(line & ? & ?) ?]. right. by exists line.
Qed.

Lemma keeps_no_delimiter image :
  has_delimiter image = false → keeps image = Str.any_upper image.
Proof.
  unfold has_delimiter, keeps. intros H.
  apply orb_false_iff in H as [H H3]. apply orb_false_iff in H as [H1 H2].
  rewrite H1, H2, H3, andb_false_r. simpl.
  by destruct (Str.any_upper image).
Qed.

Lemma keeps_delimiter image :
  has_delimiter image = true → keeps image = true.
Proof.
  unfold has_delimiter, keeps. intros H.
  destruct (Str.contains ":" image), (Str.contains "/" image),
    (Str.contains "@" image), (Str.startswith "$" image),
    (Str.any_upper image); simpl in *; congruence.
Qed.

(** The three-way test comes down to this: the [$] test changes nothing. *)
Lemma keeps_eq image :
  keeps image = has_delimiter image || Str.any_upper image.
Proof.
  destruct (has_delimiter image) eqn:Hd.
  - by rewrite keeps_delimiter.
  - by rewrite keeps_no_delimiter.
Qed.

Lemma captured_in_line line image :
  Str.split newline line = [line] → captured line image →
  captured_in line image.
Proof.
  intros Hs Hc. exists line. rewrite Hs. split; [constructor|done].
Qed.

(** ** Worked FROM lines *)

(** C3: the three-line multi-stage Dockerfile gives exactly
    {"node:18", "node:18-slim"}; the token [build] of the middle line is
    captured and then dropped by the stage-alias test. *)
Theorem C3_multi_stage {W : Type} (self : Scanner W) :
  extract_base_images self
    "FROM node:18 AS build
FROM build AS test
FROM node:18-slim"
  = {[ "node:18"; "node:18-slim" ]}
  ∧ captured "FROM build AS test" "build"
  ∧ keeps "build" = false.
Proof. repeat split; vm_compute; reflexivity. Qed.

(** C6: on [FROM --platform=linux/amd64 golang:1.21 AS builder] the flag and
    the alias are passed over and the result is exactly {"golang:1.21"}. *)
Theorem C6_platform_and_alias {W : Type} (self : Scanner W) :
  extract_base_images self
    "FROM --platform=linux/amd64 golang:1.21 AS builder"
  = {[ "golang:1.21" ]}
  ∧ captured "FROM --platform=linux/amd64 golang:1.21 AS builder"
      "golang:1.21".
Proof. repeat split; vm_compute; reflexivity. Qed.

(** ** Classification of the captured token *)

(** C4: a captured token without [:], [/] and [@] is dropped when it has no
    uppercase letter and kept when it has one; [FROM builder] gives the
    empty set and [FROM MyImage] gives {"MyImage"}. *)
Theorem C4_alias_or_uppercase {W : Type} (self : Scanner W)
    (content image : string) :
  captured_in content image →
  has_delimiter image = false →
  (Str.any_upper image = false → image ∉ extract_base_images self content)
  ∧ (Str.any_upper image = true → image ∈ extract_base_images self content)
  ∧ extract_base_images self "FROM builder" = ∅
  ∧ extract_base_images self "FROM MyImage" = {[ "MyImage" ]}.
Proof.
  intros Hc Hd. pose proof (keeps_no_delimiter _ Hd) as Hk.
  split; [|split; [|split; vm_compute; reflexivity]].
  - intros Hu [_ Hkeep]%elem_of_extract_base_images. congruence.
  - intros Hu. apply elem_of_extract_base_images. split; [done|congruence].
Qed.

Lemma C4_alias_or_uppercase_witness :
  ("builder" ∉ extract_base_images Demo.scanner0 "FROM builder")
  ∧ ("MyImage" ∈ extract_base_images Demo.scanner0 "FROM MyImage").
Proof.
  split.
  - refine (proj1
             (C4_alias_or_uppercase Demo.scanner0
                "FROM builder" "builder" _ _) _).
    + apply captured_in_line; [reflexivity|]. split; vm_compute; reflexivity.
    + reflexivity.
    + reflexivity.
  - refine (proj1 (proj2
             (C4_alias_or_uppercase Demo.scanner0
                "FROM MyImage" "MyImage" _ _)) _).
    + apply captured_in_line; [reflexivity|]. split; vm_compute; reflexivity.
    + reflexivity.
    + reflexivity.
Defined.

(** C2, as the spec words it, fails: [$BASE] starts with [$], has none of
    [:], [/], [@], and is added all the same. *)
Lemma C2_dollar_counterexample :
  captured_in "FROM $BASE" "$BASE"
  ∧ Str.startswith "$" "$BASE" = true
  ∧ has_delimiter "$BASE" = false
  ∧ extract_base_images Demo.scanner0 "FROM $BASE" = {[ "$BASE" ]}
  ∧ ¬ ("$BASE" ∈ extract_base_images Demo.scanner0 "FROM $BASE"
       ↔ has_delimiter "$BASE" = true).
Proof.
  assert (Hc : captured_in "FROM $BASE" "$BASE").
  { apply captured_in_line; [reflexivity|]. split; vm_compute; reflexivity. }
  repeat split; try (vm_compute; reflexivity); try apply Hc.
  intros [H _]. enough (has_delimiter "$BASE" = true) by discriminate.
  apply H, elem_of_extract_base_images. split; [done|reflexivity].
Qed.

(** C2, amended: a captured token that starts with [$] is added if and only
    if it has one of [:], [/], [@] or an uppercase letter. *)
Theorem C2_dollar_token {W : Type} (self : Scanner W)
    (content image : string) :
  captured_in content image →
  Str.startswith "$" image = true →
  (image ∈ extract_base_images self content
   ↔ has_delimiter image = true ∨ Str.any_upper image = true).
Proof.
  intros Hc _. rewrite elem_of_extract_base_images.
  destruct (has_delimiter image) eqn:Hd.
  - rewrite (keeps_delimiter _ Hd). tauto.
  - rewrite (keeps_no_delimiter _ Hd). split; [tauto|].
    intros [?|?]; [done|tauto].
Qed.

Lemma C2_dollar_token_witness :
  "$REGISTRY/app"
  ∈ extract_base_images Demo.scanner0 "FROM $REGISTRY/app AS run"
  ↔ has_delimiter "$REGISTRY/app" = true
    ∨ Str.any_upper "$REGISTRY/app" = true.
Proof.
  apply (C2_dollar_token Demo.scanner0
           "FROM $REGISTRY/app AS run" "$REGISTRY/app").
  - apply captured_in_line; [reflexivity|]. split; vm_compute; reflexivity.
  - reflexivity.
Defined.

(** * Properties of the naming test *)

Lemma file_name_final path : final_segment path (file_name path).
Proof.
  unfold final_segment, file_name.
  induction path as [|c p IH]; [split; [done|by left]|].
  destruct IH as [Hno Hor]. simpl Str.split.
  pose proof (split_not_nil "/" p) as Hne.
  destruct (Ascii.eqb c "/") eqn:Hc.
  - apply Ascii.eqb_eq in Hc as ->.
    destruct (Str.split "/" p) as [|h t] eqn:E; [done|].
    rewrite last_cons_cons. split; [done|]. right.
    destruct Hor as [Hp|[dir Hp]].
    + exists "". by rewrite <- Hp.
    + exists (String "/" dir). by rewrite Hp at 1.
  - destruct (Str.split "/" p) as [|h t] eqn:E; [done|].
    destruct t as [|h' t].
    + destruct (split_singleton _ _ _ E) as [-> Hh]. simpl.
      split; [|by left]. by rewrite contains_cons, Ascii.eqb_sym, Hc.
    + rewrite last_cons_cons. rewrite last_cons_cons in Hno, Hor.
      split; [done|]. right. destruct Hor as [Hp|[dir Hp]].
      * rewrite Hp in E. rewrite split_no_sep in E by done. done.
      * exists (String c dir). by rewrite Hp at 1.
Qed.

Lemma final_segment_file_name path seg :
  final_segment path seg → file_name path = seg.
Proof.
  unfold file_name. intros [Hno [->|[dir ->]]].
  - by rewrite split_no_sep.
  - rewrite split_app, last_app_not_nil by apply split_not_nil.
    by rewrite split_no_sep.
Qed.

Lemma is_dockerfile_spec path :
  is_dockerfile path = true
  ↔ ∃ seg, final_segment path seg ∧ dockerfile_name seg.
Proof.
  unfold is_dockerfile, dockerfile_name.
  rewrite !orb_true_iff, !String.eqb_eq, !startswith_spec. split.
  - intros H. exists (file_name path). split; [apply file_name_final|].
    tauto.
  - intros (seg & <-%final_segment_file_name & H). tauto.
Qed.

(** * Properties of the traversal *)

Section Traversal.

Context {W : Type}.
Variable send : request -> W -> option response * W.

Local Abbreviation Scanner := (Scanner W).
Local Abbreviation M := (@M W).

Lemma same_self_refl (s : Scanner) : same_self s s.
Proof. by split. Qed.

Lemma same_self_trans (s1 s2 s3 : Scanner) :
  same_self s1 s2 → same_self s2 s3 → same_self s1 s3.
Proof. intros [? ?] [? ?]. split; congruence. Qed.

Lemma grows_refl (s : Scanner) : grows s s.
Proof. by split. Qed.

Lemma grows_trans (s1 s2 s3 : Scanner) :
  grows s1 s2 → grows s2 s3 → grows s1 s3.
Proof. intros [? ?] [? ?]. split; [congruence|set_solver]. Qed.

Lemma same_self_grows (s s' : Scanner) : same_self s s' → grows s s'.
Proof. intros [? H]. split; [done|]. by rewrite H. Qed.

Lemma Frame_Mono {A} (m : M A) : Frame m → Mono m.
Proof. intros H s a s' E. eapply same_self_grows, H, E. Qed.

Lemma Frame_ret {A} (a : A) : Frame (ret a : M A).
Proof. intros s b s' [= _ <-]. apply same_self_refl. Qed.

Lemma Frame_bind {A B} (m : M A) (f : A → M B) :
  Frame m → (∀ a, Frame (f a)) → Frame (bind m f).
Proof.
  intros Hm Hf s b s'. unfold bind.
  destruct (m s) as [[a s1]|] eqn:E; [|done].
  intros E'. eapply same_self_trans; [eapply Hm, E|eapply Hf, E'].
Qed.

Lemma Mono_bind {A B} (m : M A) (f : A → M B) :
  Mono m → (∀ a, Mono (f a)) → Mono (bind m f).
Proof.
  intros Hm Hf s b s'. unfold bind.
  destruct (m s) as [[a s1]|] eqn:E; [|done].
  intros E'. eapply grows_trans; [eapply Hm, E|eapply Hf, E'].
Qed.

Lemma Frame_url_of {A} (f : string → M A) :
  (∀ u, Frame (f u)) → Frame (url_of f).
Proof. intros H s a s' E. eapply H, E. Qed.

Lemma Frame_session_get url params : Frame (session_get send url params).
Proof.
  intros s a s'. unfold session_get.
  destruct (send (url, params) (session s)) as [r w]. intros [= _ <-].
  by split.
Qed.

Lemma Mono_update_base_images images :
  Mono (update_base_images images : M unit).
Proof.
  intros s a s' [= _ <-]. split; [done|]. simpl. set_solver.
Qed.

Lemma Mono_for_each {A} (xs : list A) (body : A → M unit) :
  (∀ x, Mono (body x)) → Mono (for_each xs body).
Proof.
  intros H. induction xs as [|x xs IH]; simpl.
  - apply Frame_Mono, Frame_ret.
  - apply Mono_bind; [apply H|]. intros _. apply IH.
Qed.

Lemma Frame_fold_m {A B} (f : B → A → M B) xs b :
  (∀ b x, Frame (f b x)) → Frame (fold_m f xs b).
Proof.
  intros H. revert b. induction xs as [|x xs IH]; intros b; simpl.
  - apply Frame_ret.
  - apply Frame_bind; [apply H|]. intros b'. apply IH.
Qed.

Lemma Frame_get_projects_loop fuel url projects :
  Frame (get_projects_loop send fuel url projects).
Proof.
  revert url projects.
  induction fuel as [|fuel IH]; intros url projects; destruct url; simpl;
    try apply Frame_ret; try (intros ? ? ?; discriminate).
  apply Frame_bind; [apply Frame_session_get|].
  intros [resp|]; [|apply Frame_ret].
  destruct (or_default true (isLastPage (json resp))); [apply Frame_ret|].
  apply Frame_url_of. intros u. apply IH.
Qed.

Lemma Frame_get_projects fuel keys : Frame (get_projects send fuel keys).
Proof.
  unfold get_projects. destruct (truthy keys); [apply Frame_ret|].
  apply Frame_url_of. intros u. apply Frame_get_projects_loop.
Qed.

Lemma Frame_get_repositories_loop fuel key url repositories :
  Frame (get_repositories_loop send fuel key url repositories).
Proof.
  revert url repositories.
  induction fuel as [|fuel IH]; intros url repositories; destruct url;
    simpl; try apply Frame_ret; try (intros ? ? ?; discriminate).
  apply Frame_bind; [apply Frame_session_get|].
  intros [resp|]; [|apply Frame_ret].
  destruct (or_default true (isLastPage (json resp))); [apply Frame_ret|].
  apply Frame_url_of. intros u. apply IH.
Qed.

Lemma Frame_get_repositories fuel key :
  Frame (get_repositories send fuel key).
Proof.
  apply Frame_url_of. intros u. apply Frame_get_repositories_loop.
Qed.

Lemma Frame_search_dockerfiles key slug :
  Frame (search_dockerfiles send key slug).
Proof.
  apply Frame_bind; [|intros; apply Frame_ret].
  apply Frame_fold_m. intros b x. apply Frame_url_of. intros u.
  apply Frame_bind; [apply Frame_session_get|].
  intros [resp|]; apply Frame_ret.
Qed.

Lemma Frame_get_file_content key slug path :
  Frame (get_file_content send key slug path).
Proof.
  apply Frame_url_of. intros u.
  apply Frame_bind; [apply Frame_session_get|].
  intros [resp|]; apply Frame_ret.
Qed.

Lemma Mono_scan_file key slug path : Mono (scan_file send key slug path).
Proof.
  apply Mono_bind; [apply Frame_Mono, Frame_get_file_content|].
  intros [|c content]; [apply Frame_Mono, Frame_ret|].
  intros s a s' E. eapply Mono_update_base_images, E.
Qed.

Lemma Mono_scan_repo key slug : Mono (scan_repo send key slug).
Proof.
  apply Mono_bind; [apply Frame_Mono, Frame_search_dockerfiles|].
  intros [|p ps]; [apply Frame_Mono, Frame_ret|].
  apply Mono_for_each. intros x. apply Mono_scan_file.
Qed.

Lemma Mono_scan_project fuel key : Mono (scan_project send fuel key).
Proof.
  apply Mono_bind; [apply Frame_Mono, Frame_get_repositories|].
  intros repos. apply Mono_for_each. intros x. apply Mono_scan_repo.
Qed.

Lemma scan_inv fuel keys s r s' :
  scan send fuel keys s = Some (r, s') →
  r = base_images s' ∧ grows s s'.
Proof.
  unfold scan, bind. intros E.
  destruct (get_projects send fuel keys s) as [[projects s1]|] eqn:E1;
    [|done].
  destruct (for_each projects (scan_project send fuel) s1)
    as [[[] s2]|] eqn:E2; [|done].
  injection E as <- <-. split; [done|].
  eapply grows_trans.
  - eapply Frame_Mono, E1. apply Frame_get_projects.
  - eapply Mono_for_each, E2. intros x. apply Mono_scan_project.
Qed.

(** ** One turn of each listing loop *)

Lemma repos_url_cons b key : ∃ c u, repos_url b key = String c u.
Proof. unfold repos_url. destruct b; simpl; eauto. Qed.

Lemma projects_url_cons b : ∃ c u, projects_url b = String c u.
Proof. unfold projects_url. destruct b; simpl; eauto. Qed.

Lemma get_repositories_loop_step fuel key url acc s :
  url ≠ "" →
  get_repositories_loop send (S fuel) key url acc s
  = match send (url, limit 100) (session s) with
    | (None, w) => Some (acc, with_session s w)
    | (Some resp, w) =>
        let acc' := acc ++ or_default [] (values (json resp)) in
        if or_default true (isLastPage (json resp))
        then Some (acc', with_session s w)
        else get_repositories_loop send fuel key
               (repos_url (base_url s) key) acc' (with_session s w)
    end.
Proof.
  intros Hu. destruct url as [|c u]; [done|].
  simpl. unfold bind, session_get, limit.
  destruct (send _ (session s)) as [[resp|] w]; [|done].
  destruct (or_default true (isLastPage (json resp))); done.
Qed.

Lemma get_projects_loop_step fuel url acc s :
  url ≠ "" →
  get_projects_loop send (S fuel) url acc s
  = match send (url, []) (session s) with
    | (None, w) => Some (acc, with_session s w)
    | (Some resp, w) =>
        let acc' := acc ++ or_default [] (values (json resp)) in
        if or_default true (isLastPage (json resp))
        then Some (acc', with_session s w)
        else get_projects_loop send fuel
               (base_url s +:+ or_default "" (nextPageStart (json resp)))
               acc' (with_session s w)
    end.
Proof.
  intros Hu. destruct url as [|c u]; [done|].
  simpl. unfold bind, session_get.
  destruct (send _ (session s)) as [[resp|] w]; [|done].
  destruct (or_default true (isLastPage (json resp))); done.
Qed.

(** A request that fails ends the listing with what was gathered so far. *)
Lemma get_repositories_loop_fails fuel key url acc s :
  url ≠ "" →
  (send (url, limit 100) (session s)).1 = None →
  get_repositories_loop send (S fuel) key url acc s
  = Some (acc, with_session s (send (url, limit 100) (session s)).2).
Proof.
  intros Hu Hf. rewrite get_repositories_loop_step by done.
  destruct (send _ (session s)) as [[resp|] w]; simpl in *; done.
Qed.

(** The repository loop asks for the same URL with the same parameters on
    every turn: where that request is always answered by a page that is
    not the last one, no amount of fuel is enough. *)
Lemma get_repositories_loop_repeats fuel key b acc s :
  base_url s = b →
  (∀ w, ∃ resp w',
      send (repos_url b key, limit 100) w = (Some resp, w')
      ∧ isLastPage (json resp) = Some false) →
  get_repositories_loop send fuel key (repos_url b key) acc s = None.
Proof.
  intros Hb Hsame. revert acc s Hb.
  induction fuel as [|fuel IH]; intros acc s Hb.
  - destruct (repos_url_cons b key) as (c & u & ->). done.
  - rewrite get_repositories_loop_step.
    2:{ destruct (repos_url_cons b key) as (c & u & ->). done. }
    destruct (Hsame (session s)) as (resp & w' & -> & Hlast).
    rewrite Hlast. simpl. rewrite Hb. by apply IH.
Qed.

(** A listing whose next-page field is the path of the next page, three
    pages long, is read to the end by the project loop. *)
Lemma get_projects_three_pages fuel s r1 w1 n1 r2 w2 n2 r3 w3 :
  let b := base_url s in
  send (projects_url b, []) (session s) = (Some r1, w1) →
  isLastPage (json r1) = Some false →
  nextPageStart (json r1) = Some n1 → b +:+ n1 ≠ "" →
  send (b +:+ n1, []) w1 = (Some r2, w2) →
  isLastPage (json r2) = Some false →
  nextPageStart (json r2) = Some n2 → b +:+ n2 ≠ "" →
  send (b +:+ n2, []) w2 = (Some r3, w3) →
  or_default true (isLastPage (json r3)) = true →
  get_projects send (S (S (S fuel))) None s
  = Some (listed (Some r1) ++ listed (Some r2) ++ listed (Some r3),
          with_session s w3).
Proof.
  intros b E1 L1 N1 U1 E2 L2 N2 U2 E3 L3. subst b.
  unfold get_projects, url_of, truthy. cbv beta iota.
  rewrite get_projects_loop_step.
  2:{ destruct (projects_url_cons (base_url s)) as (c & u & ->). done. }
  rewrite E1, L1, N1. cbn -[get_projects_loop String.append].
  rewrite get_projects_loop_step by done.
  cbn -[get_projects_loop String.append].
  rewrite E2, L2, N2. cbn -[get_projects_loop String.append].
  rewrite get_projects_loop_step by done.
  cbn -[get_projects_loop String.append].
  rewrite E3, L3. cbn. by rewrite <- app_assoc.
Qed.

(** ** search_dockerfiles, unfolded *)

Lemma search_dockerfiles_eq key slug s :
  let req := (files_url (base_url s) key slug, limit 1000) in
  let a1 := send req (session s) in
  let a2 := send req a1.2 in
  search_dockerfiles send key slug s
  = Some (list_of_set (List.filter is_dockerfile (listed a1.1)
                       ++ List.filter is_dockerfile (listed a2.1)),
          with_session s a2.2).
Proof.
  cbv [search_dockerfiles bind search_pass url_of session_get fold_m ret
       limit].
  destruct (send _ (session s)) as [[r1|] w1]; cbn;
    destruct (send _ w1) as [[r2|] w2]; cbn; try done.
  by rewrite app_nil_r.
Qed.

(** ** The driver, unfolded *)

Lemma for_each_cons {A} (x : A) xs (body : A → M unit) s :
  for_each (x :: xs) body s
  = match body x s with
    | Some (_, s') => for_each xs body s'
    | None => None
    end.
Proof. reflexivity. Qed.

Lemma scan_keys fuel keys s :
  keys ≠ [] →
  scan send fuel (Some keys) s
  = match for_each keys (scan_project send fuel) s with
    | Some (_, s') => Some (base_images s', s')
    | None => None
    end.
Proof.
  intros Hk. destruct keys as [|k keys]; [done|].
  unfold scan, get_projects, truthy, bind, ret. cbn [or_default].
  by destruct (for_each _ _ s) as [[[] s']|].
Qed.

Lemma get_repositories_no_fuel key s : get_repositories send 0 key s = None.
Proof.
  unfold get_repositories, url_of.
  by destruct (repos_url_cons (base_url s) key) as (c & u & ->).
Qed.

Lemma scan_project_no_fuel key s : scan_project send 0 key s = None.
Proof. unfold scan_project, bind. by rewrite get_repositories_no_fuel. Qed.

Lemma get_file_content_eq key slug path s :
  let a := send (raw_url (base_url s) key slug path, []) (session s) in
  get_file_content send key slug path s
  = Some (fetched a.1, with_session s a.2).
Proof.
  cbv [get_file_content url_of bind session_get ret].
  by destruct (send _ (session s)) as [[resp|] w].
Qed.

Lemma scan_file_nothing key slug path s :
  let a := send (raw_url (base_url s) key slug path, []) (session s) in
  fetched a.1 = "" →
  scan_file send key slug path s = Some (tt, with_session s a.2).
Proof.
  intros a Hf. unfold scan_file, bind. rewrite get_file_content_eq.
  fold a. by rewrite Hf.
Qed.

(** ** The Dockerfile locator *)

(** The requests of the locator: one per search pattern, both times the
    files URL with [limit=1000] and no start offset, whatever the last-page
    flag of the answer says; what comes back are the Dockerfile paths among
    the values of those two answers. *)
Lemma search_dockerfiles_requests (key slug : string) (s : Scanner) :
  let req := (files_url (base_url s) key slug, limit 1000) in
  let pass1 := send req (session s) in
  let pass2 := send req pass1.2 in
  search_dockerfiles send key slug s
  = Some (list_of_set (List.filter is_dockerfile (listed pass1.1)
                       ++ List.filter is_dockerfile (listed pass2.1)),
          with_session s pass2.2)
  ∧ ∀ path,
      path ∈ list_of_set (List.filter is_dockerfile (listed pass1.1)
                          ++ List.filter is_dockerfile (listed pass2.1))
      ↔ is_dockerfile path = true
        ∧ (path ∈ listed pass1.1 ∨ path ∈ listed pass2.1).
Proof.
  intros req pass1 pass2. split; [apply search_dockerfiles_eq|].
  intros path. subst pass2 pass1 req. unfold list_of_set.
  rewrite elem_of_elements, elem_of_list_to_set, elem_of_app.
  rewrite !list_elem_of_In, !filter_In. tauto.
Qed.

(** C8: a listed path is kept exactly when its final segment is
    [Dockerfile] or [dockerfile] or starts with [Dockerfile.] or
    [dockerfile.]; the result has no path twice although both passes see
    the same listing. *)
Theorem C8_dockerfile_filter (key slug : string) (s : Scanner)
    (path : string) :
  let req := (files_url (base_url s) key slug, limit 1000) in
  let pass1 := send req (session s) in
  let pass2 := send req pass1.2 in
  ∃ found,
    search_dockerfiles send key slug s
    = Some (found, with_session s pass2.2)
    ∧ NoDup found
    ∧ (path ∈ found
       ↔ (path ∈ listed pass1.1 ∨ path ∈ listed pass2.1)
         ∧ ∃ seg, final_segment path seg ∧ dockerfile_name seg)
    ∧ is_dockerfile "Dockerfile.prod" = true
    ∧ is_dockerfile "dockerfile.ci" = true
    ∧ is_dockerfile "DockerfileFoo" = false.
Proof.
  intros req pass1 pass2. eexists. split; [apply search_dockerfiles_eq|].
  split; [unfold list_of_set; apply NoDup_elements|].
  split; [|by repeat split].
  subst pass2 pass1 req. unfold list_of_set.
  rewrite elem_of_elements, elem_of_list_to_set, elem_of_app.
  rewrite !list_elem_of_In, !filter_In, <- is_dockerfile_spec. tauto.
Qed.

(** ** Failures do not stop the walk *)

(** C7: when the first project was scanned to the end and the listing of
    the second one fails, that listing returns what it had gathered (here
    nothing), [scan] returns, and its result holds every image of the first
    project; a listing that fails on a later turn returns the repositories
    gathered before; a file whose content cannot be fetched, or is empty,
    adds no image and the walk goes on with the next file. *)
Theorem C7_partial_failure (fuel : nat) (P1 P2 : string) (s s1 : Scanner)
    (r1 : gset string) :
  scan send fuel (Some [P1]) s = Some (r1, s1) →
  (send (repos_url (base_url s1) P2, limit 100) (session s1)).1 = None →
  let s2 :=
    with_session s1
      (send (repos_url (base_url s1) P2, limit 100) (session s1)).2 in
  get_repositories send fuel P2 s1 = Some ([], s2)
  ∧ scan send fuel (Some [P1; P2]) s = Some (r1, s2)
  ∧ (∀ rest r s3,
        rest ≠ [] → scan send fuel (Some rest) s1 = Some (r, s3) →
        scan send fuel (Some (P1 :: rest)) s = Some (r, s3) ∧ r1 ⊆ r)
  ∧ (∀ key url acc s',
        url ≠ "" → (send (url, limit 100) (session s')).1 = None →
        get_repositories_loop send fuel key url acc s'
        = Some (acc, with_session s' (send (url, limit 100) (session s')).2))
  ∧ (∀ key slug path rest s',
        let a :=
          send (raw_url (base_url s') key slug path, []) (session s') in
        fetched a.1 = "" →
        scan_file send key slug path s' = Some (tt, with_session s' a.2)
        ∧ base_images (with_session s' a.2) = base_images s'
        ∧ for_each (path :: rest) (scan_file send key slug) s'
          = for_each rest (scan_file send key slug) (with_session s' a.2)).
Proof.
  intros H1 H2 s2.
  rewrite scan_keys in H1 by done. rewrite for_each_cons in H1.
  destruct fuel as [|fuel]; [by rewrite scan_project_no_fuel in H1|].
  destruct (scan_project send (S fuel) P1 s) as [[[] s1']|] eqn:EP1;
    [|done].
  simpl in H1. injection H1 as <- ->.
  assert (Hrepos : get_repositories send (S fuel) P2 s1 = Some ([], s2)).
  { unfold get_repositories, url_of.
    apply get_repositories_loop_fails; [|done].
    by destruct (repos_url_cons (base_url s1) P2) as (c & u & ->). }
  split; [done|]. split; [|split; [|split]].
  - rewrite scan_keys by done. rewrite for_each_cons, EP1, for_each_cons.
    unfold scan_project, bind. rewrite Hrepos. done.
  - intros rest r s3 Hrest Hscan. pose proof Hscan as Hinv.
    apply scan_inv in Hinv as [-> [_ Hsub]].
    rewrite scan_keys in Hscan by done. rewrite scan_keys by done.
    rewrite for_each_cons, EP1. done.
  - intros key url acc s' Hu Hf. by apply get_repositories_loop_fails.
  - intros key slug path rest s' a Hf.
    pose proof (scan_file_nothing key slug path s' Hf) as E. fold a in E.
    split; [done|]. split; [done|]. by rewrite for_each_cons, E.
Qed.

(** ** The accumulator *)

(** C10: [scan] starts from the images the scanner already holds and only
    adds to them, so the set returned by a second [scan] includes the set
    returned by the first, whatever the projects of the two calls; no method
    takes an image away. *)
Theorem C10_accumulator_grows (fuel1 fuel2 : nat)
    (keys1 keys2 : option (list string)) (s s1 s2 : Scanner)
    (r1 r2 : gset string) :
  scan send fuel1 keys1 s = Some (r1, s1) →
  scan send fuel2 keys2 s1 = Some (r2, s2) →
  r1 ⊆ r2
  ∧ base_images s ⊆ r1
  ∧ r1 = base_images s1 ∧ r2 = base_images s2
  ∧ (∀ fuel keys, Mono (get_projects send fuel keys))
  ∧ (∀ fuel key, Mono (get_repositories send fuel key))
  ∧ (∀ key slug, Mono (search_dockerfiles send key slug))
  ∧ (∀ key slug path, Mono (get_file_content send key slug path))
  ∧ (∀ key slug path, Mono (scan_file send key slug path)).
Proof.
  intros [-> [_ Hs1]]%scan_inv [-> [_ Hs2]]%scan_inv.
  do 4 (split; [done|]). split; [|split; [|split; [|split]]].
  - intros fuel keys. apply Frame_Mono, Frame_get_projects.
  - intros fuel key. apply Frame_Mono, Frame_get_repositories.
  - intros key slug. apply Frame_Mono, Frame_search_dockerfiles.
  - intros key slug path. apply Frame_Mono, Frame_get_file_content.
  - intros key slug path. apply Mono_scan_file.
Qed.

End Traversal.

(** ** The listing loops on the small Bitbucket *)

(** C1: the repositories of [P3] are served in three pages (start 0, 2, 3;
    the first two not last). [get_repositories] asks for the first page on
    every turn and never returns, whatever the fuel; [get_projects], whose
    listing names the path of the next page, reads its three pages into one
    list of 2 + 1 + 2 project keys. *)
Theorem C1_repository_listing_repeats :
  let url := repos_url (base_url Demo.scanner0) "P3" in
  (Demo.site (url, limit 100) tt).1
    = Some (Demo.listing ["r1"; "r2"] false (Some "2"))
  ∧ (Demo.site (url, Demo.from 2 100) tt).1
    = Some (Demo.listing ["r3"] false (Some "3"))
  ∧ (Demo.site (url, Demo.from 3 100) tt).1
    = Some (Demo.listing ["r4"; "r5"] true None)
  ∧ (∀ fuel, get_repositories Demo.site fuel "P3" Demo.scanner0 = None)
  ∧ get_projects Demo.site 3 None Demo.scanner0
    = Some (["P1"; "P2"] ++ ["P3"] ++ ["P4"; "P5"], Demo.scanner0).
Proof.
  intros url. do 3 (split; [vm_compute; reflexivity|]).
  split; [|vm_compute; reflexivity].
  intros fuel. unfold get_repositories, url_of.
  apply get_repositories_loop_repeats; [done|].
  intros []. eexists _, _. split; vm_compute; reflexivity.
Qed.

(** C5: the file listing of [P1/app] is served in two pages; the first one
    says that it is not the last, and the second one (start 5) has
    [deploy/Dockerfile]. [search_dockerfiles] does not go on to the second
    page as the listing protocol asks and as the project and repository
    loops do after such a page: it returns the Dockerfiles of the first
    page only, and [deploy/Dockerfile] is lost. *)
Theorem C5_locator_first_page_only :
  let url := files_url (base_url Demo.scanner0) "P1" "app" in
  (isLastPage ∘ json <$> (Demo.site (url, limit 1000) tt).1)
    = Some (Some false)
  ∧ listed (Demo.site (url, Demo.from 5 1000) tt).1 = ["deploy/Dockerfile"]
  ∧ is_dockerfile "deploy/Dockerfile" = true
  ∧ search_dockerfiles Demo.site "P1" "app" Demo.scanner0
    = Some (["ci/dockerfile.ci"; "docker/Dockerfile.prod"; "Dockerfile"],
            Demo.scanner0)
  ∧ "deploy/Dockerfile"
    ∉ ["ci/dockerfile.ci"; "docker/Dockerfile.prod"; "Dockerfile"].
Proof.
  intros url. do 4 (split; [vm_compute; reflexivity|]).
  rewrite !not_elem_of_cons. repeat split; try discriminate.
  apply not_elem_of_nil.
Qed.

(** ** The scan on the small Bitbucket *)

Lemma C7_partial_failure_witness :
  scan Demo.site 1 (Some ["P1"; "P2"]) Demo.scanner0
  = Some ({[ "node:18"; "node:18-slim" ]},
          MkScanner Demo.base tt {[ "node:18"; "node:18-slim" ]}).
Proof.
  refine (proj1 (proj2
    (C7_partial_failure Demo.site 1 "P1" "P2" Demo.scanner0
       (MkScanner Demo.base tt {[ "node:18"; "node:18-slim" ]})
       {[ "node:18"; "node:18-slim" ]} _ _))).
  - vm_compute. reflexivity.
  - vm_compute. reflexivity.
Defined.

Lemma C10_accumulator_grows_witness :
  ({[ "node:18"; "node:18-slim" ]} : gset string)
  ⊆ {[ "golang:1.21"; "node:18"; "node:18-slim" ]}.
Proof.
  refine (proj1
    (C10_accumulator_grows Demo.site 1 1 (Some ["P1"]) (Some ["P4"])
       Demo.scanner0
       (MkScanner Demo.base tt {[ "node:18"; "node:18-slim" ]})
       (MkScanner Demo.base tt {[ "golang:1.21"; "node:18"; "node:18-slim" ]})
       _ _ _ _)).
  - vm_compute. reflexivity.
  - vm_compute. reflexivity.
Defined.

(** * Further properties of the string operations *)

Lemma app_cons c (a b : string) : String c a +:+ b = String c (a +:+ b).
Proof. reflexivity. Qed.

Lemma app_empty_r (s : string) : s +:+ "" = s.
Proof. induction s as [|c s IH]; [done|]. by rewrite app_cons, IH. Qed.

Lemma app_assoc_s (a b c : string) : (a +:+ b) +:+ c = a +:+ b +:+ c.
Proof. induction a as [|x a IH]; [done|]. by rewrite !app_cons, IH. Qed.

Lemma length_app_s (a b : string) :
  String.length (a +:+ b) = String.length a + String.length b.
Proof. induction a as [|x a IH]; [done|]. rewrite app_cons. simpl. by rewrite IH. Qed.

Lemma all_cons p c s : Str.all p (String c s) = p c && Str.all p s.
Proof. reflexivity. Qed.

Lemma all_app p a b : Str.all p (a +:+ b) = Str.all p a && Str.all p b.
Proof.
  induction a as [|x a IH]; [done|].
  by rewrite app_cons, !all_cons, IH, andb_assoc.
Qed.

Lemma chars_app (a b : string) :
  Str.chars (a +:+ b) = Str.chars a ++ Str.chars b.
Proof.
  induction a as [|x a IH]; [done|]. rewrite app_cons.
  change (Str.chars (String x (a +:+ b))) with (x :: Str.chars (a +:+ b)).
  by rewrite IH.
Qed.

Lemma of_chars_app (l1 l2 : list ascii) :
  string_of_list_ascii (l1 ++ l2)
  = string_of_list_ascii l1 +:+ string_of_list_ascii l2.
Proof. induction l1 as [|x l1 IH]; [done|]. simpl. by rewrite IH, app_cons. Qed.

Lemma rev_app_s (a b : string) : Str.rev (a +:+ b) = Str.rev b +:+ Str.rev a.
Proof. unfold Str.rev. by rewrite chars_app, rev_app_distr, of_chars_app. Qed.

Lemma rev_involutive_s (s : string) : Str.rev (Str.rev s) = s.
Proof.
  unfold Str.rev, Str.chars.
  by rewrite list_ascii_of_string_of_list_ascii, rev_involutive,
    string_of_list_ascii_of_string.
Qed.

(** [lstrip] cuts a whitespace prefix and stops at the first character
    that is not whitespace. *)
Lemma lstrip_split s :
  ∃ ws, s = ws +:+ Str.lstrip s
        ∧ Str.all Str.isspace ws = true
        ∧ Str.stops Str.isspace (Str.lstrip s) = true.
Proof.
  induction s as [|c s (ws & E & Hws & Hst)].
  - by exists "".
  - simpl. destruct (Str.isspace c) eqn:Hc.
    + exists (String c ws). rewrite app_cons, <- E.
      by rewrite all_cons, Hc, Hws.
    + exists "". simpl. by rewrite Hc.
Qed.

Lemma lstrip_app ws s :
  Str.all Str.isspace ws = true → Str.lstrip (ws +:+ s) = Str.lstrip s.
Proof.
  induction ws as [|c ws IH]; [done|].
  rewrite all_cons. intros [Hc Hws]%andb_true_iff.
  rewrite app_cons. simpl. rewrite Hc. by apply IH.
Qed.

Lemma lstrip_stops s :
  Str.stops Str.isspace s = true → Str.lstrip s = s.
Proof. destruct s as [|c s]; [done|]. simpl. by intros ->%negb_true_iff. Qed.

(** [rstrip] keeps the first character of a string that does not start
    with whitespace. *)
Lemma rstrip_head c s :
  Str.isspace c = false → ∃ s', Str.rstrip (String c s) = String c s'.
Proof.
  intros Hc. unfold Str.rstrip.
  change (String c s) with (String c "" +:+ s). rewrite rev_app_s.
  change (Str.rev (String c "")) with (String c "").
  generalize (Str.rev s). intros t.
  assert (∃ u, Str.lstrip (t +:+ String c "") = u +:+ String c "")
    as [u ->].
  { induction t as [|x t [u IH]].
    - exists "". simpl. by rewrite Hc.
    - rewrite app_cons. simpl. destruct (Str.isspace x); [by exists u|].
      by exists (String x t). }
  exists (Str.rev u). by rewrite rev_app_s.
Qed.

Lemma strip_head ws c s :
  Str.all Str.isspace ws = true → Str.isspace c = false →
  ∃ s', Str.strip (ws +:+ String c s) = String c s'.
Proof.
  intros Hws Hc. unfold Str.strip. rewrite lstrip_app by done.
  simpl Str.lstrip. rewrite Hc. by apply rstrip_head.
Qed.

Lemma strip_blank ws :
  Str.all Str.isspace ws = true → Str.strip ws = "".
Proof.
  intros Hws. unfold Str.strip.
  rewrite <- (app_empty_r ws), lstrip_app by done. done.
Qed.

(** [line.strip().startswith('#')] holds exactly for the lines whose first
    character after leading whitespace is [#]. *)
Theorem comment_line_spec (line : string) :
  is_comment line = true
  ↔ ∃ ws rest, Str.all Str.isspace ws = true ∧ line = ws +:+ String "#" rest.
Proof.
  unfold is_comment. split.
  - destruct (lstrip_split line) as (ws & E & Hws & Hst).
    unfold Str.strip. destruct (Str.lstrip line) as [|c t] eqn:El; [done|].
    simpl in Hst. apply negb_true_iff in Hst.
    destruct (rstrip_head c t Hst) as [u ->].
    intros [rest [= <- _]]%startswith_spec. by exists ws, t.
  - intros (ws & rest & Hws & ->).
    destruct (strip_head ws "#" rest Hws eq_refl) as [u ->]. done.
Qed.

(** * Further properties of the matcher *)

Lemma star_sound {R} p s (k : string → option R) m :
  Re.star p s k = Some m →
  ∃ t s', s = t +:+ s' ∧ Str.all p t = true ∧ k s' = Some m.
Proof.
  induction s as [|c s IH]; simpl.
  - intros E. by exists "", "".
  - destruct (p c) eqn:Hc; [|intros E; by exists "", (String c s)].
    destruct (Re.star p s k) eqn:Es.
    + intros [= ->]. destruct (IH eq_refl) as (t & s' & -> & Ht & E).
      exists (String c t), s'. by rewrite all_cons, Hc, Ht.
    + intros E. by exists "", (String c s).
Qed.

Lemma plus_sound {R} p s (k : string → option R) m :
  Re.plus p s k = Some m →
  ∃ t s', s = t +:+ s' ∧ t ≠ "" ∧ Str.all p t = true ∧ k s' = Some m.
Proof.
  destruct s as [|c s]; simpl; [done|].
  destruct (p c) eqn:Hc; [|done].
  intros (t & s' & -> & Ht & E)%star_sound.
  exists (String c t), s'. by rewrite all_cons, Hc, Ht.
Qed.

(** Every result of the search is a match in the sense of [matches]. *)
Lemma bt_sound {R} ic whole r :
  ∀ s g (k : string → option string → option R) m,
    Re.bt ic whole r s g k = Some m →
    ∃ s' g', Re.matches ic whole r s g s' g' ∧ k s' g' = Some m.
Proof.
  induction r as [|l|c|c|r1 IH1 r2 IH2|r IH|r IH]; intros s g k m; simpl.
  - destruct (Nat.eqb _ _) eqn:E; [|done]. apply Nat.eqb_eq in E.
    intros Hk. exists s, g. split; [by constructor|done].
  - destruct (Re.eat ic l s) as [s'|] eqn:E; [|done].
    intros Hk. exists s', g. split; [by constructor|done].
  - intros (t & s' & -> & Ht & Hk)%star_sound.
    exists s', g. split; [by constructor|done].
  - intros (t & s' & -> & Hne & Ht & Hk)%plus_sound.
    exists s', g. split; [by constructor|done].
  - intros (s1 & g1 & M1 & E)%IH1. apply IH2 in E as (s2 & g2 & M2 & Hk).
    exists s2, g2. split; [eapply Re.m_cat; eassumption|done].
  - destruct (Re.bt ic whole r s g k) eqn:E.
    + intros [= ->]. apply IH in E as (s' & g' & M & Hk).
      exists s', g'. split; [by apply Re.m_opt_take|done].
    + intros Hk. exists s, g. split; [apply Re.m_opt_skip|done].
  - intros (s' & g' & M & Hk)%IH. eexists s', _.
    split; [eapply Re.m_group, M|exact Hk].
Qed.

Lemma eat_sound ic l s s' :
  Re.eat ic l s = Some s' →
  ∃ t, s = t +:+ s' ∧ String.length t = String.length l
       ∧ (ic = true → Str.lower t = Str.lower l).
Proof.
  revert s. induction l as [|a l IH]; intros s; simpl.
  - intros [= ->]. by exists "".
  - destruct s as [|b s]; [done|].
    destruct (Re.lit_eqb ic a b) eqn:Hab; [|done].
    intros (t & -> & Hlen & Hlow)%IH. exists (String b t).
    split; [done|]. split; [simpl; by rewrite Hlen|].
    intros ->. simpl. rewrite Hlow by done. f_equal.
    symmetry. by apply Ascii.eqb_eq.
Qed.

(** A match takes a prefix off the subject. *)
Lemma matches_suffix ic whole r s g s' g' :
  Re.matches ic whole r s g s' g' → ∃ t, s = t +:+ s'.
Proof.
  induction 1 as [s g _|l s s' g E|c t s g _|c t s g _ _
                  |r1 r2 s g s1 g1 s2 g2 _ [t1 ->] _ [t2 ->]
                  |r s g|r s g s' g' _ IH|r s g s' g' _ IH].
  - by exists "".
  - apply eat_sound in E as (t & -> & _). by exists t.
  - by exists t.
  - by exists t.
  - exists (t1 +:+ t2). by rewrite app_assoc_s.
  - by exists "".
  - done.
  - done.
Qed.

Lemma take_app_s (t s : string) :
  Str.take (String.length (t +:+ s) - String.length s) (t +:+ s) = t.
Proof.
  rewrite length_app_s.
  replace (String.length t + String.length s - String.length s)
    with (String.length t) by lia.
  induction t as [|c t IH]; [by destruct s|].
  rewrite app_cons. simpl. by rewrite IH.
Qed.

(** Without a group, group 1 stays as it was. *)
Lemma matches_group_free ic whole r s g s' g' :
  Re.group_free r = true → Re.matches ic whole r s g s' g' → g' = g.
Proof.
  intros Hf M. induction M; simpl in Hf; try done.
  - apply andb_true_iff in Hf as [? ?]. rewrite IHM2, IHM1; done.
  - by apply IHM.
Qed.

Lemma m_inv_bol ic whole s g s' g' :
  Re.matches ic whole Re.Bol s g s' g' → s' = s ∧ g' = g.
Proof. by inversion 1. Qed.

Lemma m_inv_lit whole l s g s' g' :
  Re.matches true whole (Re.Lit l) s g s' g' →
  g' = g ∧ ∃ t, s = t +:+ s' ∧ Str.lower t = Str.lower l.
Proof.
  inversion 1 as [|? ? ? ? E| | | | | |]; subst. split; [done|].
  apply eat_sound in E as (t & -> & _ & Hl). exists t. auto.
Qed.

Lemma m_inv_star ic whole c s g s' g' :
  Re.matches ic whole (Re.Star c) s g s' g' →
  g' = g ∧ ∃ t, s = t +:+ s' ∧ Str.all (Re.in_class c) t = true.
Proof. inversion 1; subst. split; [done|]. by eexists. Qed.

Lemma m_inv_plus ic whole c s g s' g' :
  Re.matches ic whole (Re.Plus c) s g s' g' →
  g' = g ∧ ∃ t, s = t +:+ s' ∧ t ≠ ""
                ∧ Str.all (Re.in_class c) t = true.
Proof. inversion 1; subst. split; [done|]. by eexists. Qed.

Lemma m_inv_cat ic whole r1 r2 s g s' g' :
  Re.matches ic whole (Re.Cat r1 r2) s g s' g' →
  ∃ s1 g1, Re.matches ic whole r1 s g s1 g1
           ∧ Re.matches ic whole r2 s1 g1 s' g'.
Proof. inversion 1; subst. by eexists _, _. Qed.

Lemma m_inv_opt ic whole r s g s' g' :
  Re.matches ic whole (Re.Opt r) s g s' g' →
  (s' = s ∧ g' = g) ∨ Re.matches ic whole r s g s' g'.
Proof. inversion 1; subst; auto. Qed.

Lemma m_inv_group ic whole r s g s' g' :
  Re.matches ic whole (Re.Group r) s g s' g' →
  ∃ g0, Re.matches ic whole r s g s' g0
        ∧ g' = Some (Str.take (String.length s - String.length s') s).
Proof. inversion 1; subst. by eexists. Qed.

(** What the FROM pattern accepts: a match means that the line has the
    form [from_line], with group 1 the token after the keyword and the
    optional platform flag. *)
Lemma pattern_sound line m :
  Re.re_match pattern line true = Some m →
  ∃ image, Re.group1 m = Some image ∧ from_line line image.
Proof.
  unfold Re.re_match. intros (s' & g' & M & [= <-])%bt_sound.
  unfold pattern in M. simpl Re.cats in M.
  apply m_inv_cat in M as (s1 & g1 & [-> ->]%m_inv_bol & M).
  apply m_inv_cat in M as (s2 & g2 & [-> (ws & -> & Hws)]%m_inv_star & M).
  apply m_inv_cat in M as (s3 & g3 & [-> (kw & -> & Hkw)]%m_inv_lit & M).
  apply m_inv_cat in M
    as (s4 & g4 & [-> (sp & -> & Hsp & Hsp')]%m_inv_plus & M).
  apply m_inv_cat in M as (s5 & g5 & Mflag & M).
  apply m_inv_cat in M as (s6 & g6 & Mgrp & Mas).
  apply m_inv_group in Mgrp
    as (g0 & [_ (image & -> & Hne & Himg)]%m_inv_plus & ->).
  rewrite take_app_s in Mas.
  apply matches_group_free in Mas as ->; [|done].
  exists image. split; [done|].
  assert (∃ flag, s4 = flag +:+ image +:+ s6 ∧ platform_flag flag)
    as (flag & -> & Hflag).
  { apply m_inv_opt in Mflag as [[-> _]|Mflag].
    - exists "". split; [done|by left].
    - apply m_inv_cat in Mflag
        as (t1 & h1 & [_ (pf & -> & Hpf)]%m_inv_lit & Mflag).
      apply m_inv_cat in Mflag
        as (t2 & h2 & [_ (v & -> & Hv & Hv')]%m_inv_plus & Mflag).
      apply m_inv_plus in Mflag as [_ (sp2 & -> & Hs2 & Hs2')].
      exists (pf +:+ v +:+ sp2). split; [by rewrite !app_assoc_s|].
      right. by exists pf, v, sp2. }
  by exists ws, kw, sp, flag, s6.
Qed.

(** ** The search finds the intended match *)

Lemma star_greedy {R} p t s (k : string → option R) m :
  Str.all p t = true → Str.stops p s = true → k s = Some m →
  Re.star p (t +:+ s) k = Some m.
Proof.
  intros Ht Hs Hk. induction t as [|c t IH].
  - destruct s as [|c s]; [done|]. simpl in *.
    apply negb_true_iff in Hs. by rewrite Hs.
  - rewrite all_cons in Ht. apply andb_true_iff in Ht as [Hc Ht].
    rewrite app_cons. simpl. by rewrite Hc, IH.
Qed.

Lemma plus_greedy {R} p t s (k : string → option R) m :
  t ≠ "" → Str.all p t = true → Str.stops p s = true → k s = Some m →
  Re.plus p (t +:+ s) k = Some m.
Proof.
  intros Hne Ht Hs Hk. destruct t as [|c t]; [done|].
  rewrite all_cons in Ht. apply andb_true_iff in Ht as [Hc Ht].
  rewrite app_cons. simpl. rewrite Hc. by apply star_greedy.
Qed.

Lemma eat_lower l t s :
  Str.lower t = Str.lower l → Re.eat true l (t +:+ s) = Some s.
Proof.
  revert t. induction l as [|a l IH]; intros [|b t]; simpl; try done.
  intros [= Hab Htl]. unfold Re.lit_eqb.
  rewrite Hab, Ascii.eqb_refl. by apply IH.
Qed.

Lemma isspace_casefold c : Str.isspace (Str.casefold c) = Str.isspace c.
Proof. by destruct c as [[] [] [] [] [] [] [] []]. Qed.

Lemma casefold_hyphen c : Str.casefold c = "-"%char → c = "-"%char.
Proof. destruct c as [[] [] [] [] [] [] [] []]; by vm_compute. Qed.

(** A string that folds to a non-empty text without whitespace at its head
    does not start with whitespace. *)
Lemma stops_lower kw c l s :
  Str.lower kw = String c l → Str.isspace c = false →
  Str.stops Str.isspace (kw +:+ s) = true.
Proof.
  destruct kw as [|a kw]; [done|]. simpl. intros [= <- _].
  rewrite isspace_casefold. by intros ->.
Qed.

Lemma stops_token t s :
  is_token t → Str.stops Str.isspace (t +:+ s) = true.
Proof.
  intros [Hne Ht]. destruct t as [|a t]; [done|].
  rewrite all_cons in Ht. apply andb_true_iff in Ht as [Ha _]. exact Ha.
Qed.

(** The optional tail of the pattern never takes the match away. *)
Lemma opt_tail r whole s g :
  Re.group_free r = true →
  Re.bt true whole (Re.Opt r) s g (λ _ g', Some {| Re.group1 := g' |})
  = Some {| Re.group1 := g |}.
Proof.
  intros Hf. simpl.
  destruct (Re.bt true whole r s g _) eqn:E; [|done].
  apply bt_sound in E as (s' & g' & M & [= <-]).
  by rewrite (matches_group_free _ _ _ _ _ _ _ Hf M).
Qed.

(** From the token on: the group takes the whole token. *)
Lemma group_step whole tail image rest g :
  Re.group_free tail = true →
  is_token image → Str.stops (Re.in_class Re.NotSpace) rest = true →
  Re.bt true whole
    (Re.Cat (Re.Group (Re.Plus Re.NotSpace)) (Re.Opt tail))
    (image +:+ rest) g (λ _ g', Some {| Re.group1 := g' |})
  = Some {| Re.group1 := Some image |}.
Proof.
  intros Hf [Hne Himg] Hrest. cbn [Re.bt].
  apply plus_greedy; [done..|].
  rewrite take_app_s. by apply opt_tail.
Qed.

Lemma bt_cat {R} ic whole r1 r2 s g
    (k : string → option string → option R) :
  Re.bt ic whole (Re.Cat r1 r2) s g k
  = Re.bt ic whole r1 s g (λ s' g', Re.bt ic whole r2 s' g' k).
Proof. reflexivity. Qed.

Lemma bt_bol {R} ic whole s g (k : string → option string → option R) :
  Re.bt ic whole Re.Bol s g k
  = if Nat.eqb (String.length s) (String.length whole) then k s g else None.
Proof. reflexivity. Qed.

Lemma bt_star {R} ic whole c s g (k : string → option string → option R) :
  Re.bt ic whole (Re.Star c) s g k
  = Re.star (Re.in_class c) s (λ s', k s' g).
Proof. reflexivity. Qed.

Lemma bt_lit {R} ic whole l s g (k : string → option string → option R) :
  Re.bt ic whole (Re.Lit l) s g k
  = match Re.eat ic l s with Some s' => k s' g | None => None end.
Proof. reflexivity. Qed.

Lemma bt_plus {R} ic whole c s g (k : string → option string → option R) :
  Re.bt ic whole (Re.Plus c) s g k
  = Re.plus (Re.in_class c) s (λ s', k s' g).
Proof. reflexivity. Qed.

Lemma bt_opt {R} ic whole r s g (k : string → option string → option R) :
  Re.bt ic whole (Re.Opt r) s g k
  = match Re.bt ic whole r s g k with
    | Some x => Some x
    | None => k s g
    end.
Proof. reflexivity. Qed.

(** The platform flag, when it is there, is taken whole. *)
Lemma flag_step {R} whole pf v sp s g
    (k : string → option string → option R) m :
  Str.lower pf = "--platform=" → is_token v → is_gap sp →
  Str.stops Str.isspace s = true → k s g = Some m →
  Re.bt true whole
    (Re.cats [Re.Lit "--platform="; Re.Plus Re.NotSpace; Re.Plus Re.Space])
    (pf +:+ v +:+ sp +:+ s) g k
  = Some m.
Proof.
  intros Hpf [Hv Hv'] [Hsp Hsp'] Hs Hk. cbn [Re.cats].
  rewrite bt_cat, bt_lit, eat_lower by done.
  rewrite bt_cat, bt_plus.
  apply plus_greedy; [done|done| |].
  { destruct sp as [|c sp]; [done|]. rewrite app_cons. simpl.
    rewrite all_cons in Hsp'. apply andb_true_iff in Hsp' as [-> _]. done. }
  rewrite bt_plus. by apply plus_greedy.
Qed.

(** Without the flag, and with a token that does not start with [-], the
    optional flag is passed over. *)
Lemma no_flag_step {R} whole image rest g
    (k : string → option string → option R) :
  image ≠ "" → Str.startswith "-" image = false →
  Re.bt true whole
    (Re.cats [Re.Lit "--platform="; Re.Plus Re.NotSpace; Re.Plus Re.Space])
    (image +:+ rest) g k
  = None.
Proof.
  intros Hne Hdash. cbn [Re.cats]. rewrite bt_cat, bt_lit.
  destruct image as [|c image]; [done|]. rewrite app_cons.
  cbn [Re.eat]. unfold Re.lit_eqb.
  destruct (Ascii.eqb (Str.casefold "-") (Str.casefold c)) eqn:Hc; [|done].
  apply Ascii.eqb_eq in Hc. symmetry in Hc.
  apply casefold_hyphen in Hc as ->. done.
Qed.

(** What the FROM pattern finds: on a line of the form [from_line] whose
    token ends at whitespace or at the end of the line, and does not start
    with [-] when there is no platform flag, group 1 is that token. *)
Lemma pattern_complete ws kw sp flag image rest :
  Str.all Str.isspace ws = true →
  Str.lower kw = "from" →
  is_gap sp →
  platform_flag flag →
  is_token image →
  Str.stops (Re.in_class Re.NotSpace) rest = true →
  (flag = "" → Str.startswith "-" image = false) →
  Re.re_match pattern (ws +:+ kw +:+ sp +:+ flag +:+ image +:+ rest) true
  = Some {| Re.group1 := Some image |}.
Proof.
  intros Hws Hkw [Hsp Hsp'] Hflag Himg Hrest Hdash.
  unfold Re.re_match, pattern. cbn [Re.cats].
  rewrite bt_cat, bt_bol, Nat.eqb_refl.
  rewrite bt_cat, bt_star.
  apply star_greedy; [done|by eapply stops_lower|].
  rewrite bt_cat, bt_lit, eat_lower by done.
  rewrite bt_cat, bt_plus.
  apply plus_greedy; [done|done| |].
  { destruct Hflag as [->|(pf & v & sp2 & -> & Hpf & _)].
    - by apply (stops_token image rest).
    - rewrite !app_assoc_s. by eapply stops_lower. }
  rewrite bt_cat, bt_opt.
  pose proof (group_step (ws +:+ kw +:+ sp +:+ flag +:+ image +:+ rest)
                (Re.cats [Re.Plus Re.Space; Re.Lit "AS"; Re.Plus Re.Space;
                          Re.Plus Re.NotSpace])
                image rest None eq_refl Himg Hrest) as HK.
  cbn [Re.cats] in HK.
  destruct Hflag as [->|(pf & v & sp2 & -> & Hpf & Hv & Hs2)].
  - change ("" +:+ image +:+ rest) with (image +:+ rest).
    pose proof (no_flag_step (R := Re.match_object)) as HN.
    cbn [Re.cats] in HN. rewrite HN; [exact HK|apply Himg|by apply Hdash].
  - rewrite !app_assoc_s.
    pose proof (flag_step (R := Re.match_object)) as HF.
    cbn [Re.cats] in HF.
    erewrite HF; [done|done|done|done| |exact HK].
    by apply stops_token.
Qed.

(** * Further properties of the extractor *)

Lemma from_line_not_comment ws kw s :
  Str.all Str.isspace ws = true → Str.lower kw = "from" →
  is_comment (ws +:+ kw +:+ s) = false.
Proof.
  intros Hws Hkw. destruct kw as [|c kw]; [done|].
  simpl in Hkw. injection Hkw as Hc _.
  assert (Str.isspace c = false) as Hsp.
  { by rewrite <- isspace_casefold, Hc. }
  rewrite app_cons. unfold is_comment.
  destruct (strip_head ws c (kw +:+ s) Hws Hsp) as [u ->].
  apply not_true_is_false. intros [rest [= -> _]]%startswith_spec.
  by vm_compute in Hc.
Qed.

Lemma from_line_uncommented line image :
  from_line line image → is_comment line = false.
Proof.
  intros (ws & kw & sp & flag & rest & -> & Hws & Hkw & _).
  by apply from_line_not_comment.
Qed.

Lemma extracted_image_shape {W : Type} (self : Scanner W)
    (content image : string) :
  image ∈ extract_base_images self content →
  is_token image
  ∧ (has_delimiter image = true ∨ Str.any_upper image = true)
  ∧ ∃ line, line ∈ Str.split newline content
            ∧ is_comment line = false ∧ from_line line image.
Proof.
  intros [(line & Hin & Hnc & Hm) Hk]%elem_of_extract_base_images.
  apply pattern_sound in Hm as (image' & [= <-] & Hfl).
  split; [|split].
  - by destruct Hfl as (ws & kw & sp & flag & rest & _ & _ & _ & _ & _ & ?).
  - rewrite keeps_eq in Hk. by apply orb_true_iff in Hk.
  - by exists line.
Qed.

(** Every image that [extract_base_images] returns is a token (not empty,
    no whitespace) that follows [FROM] and the optional platform flag on a
    line of the text that is not a comment, and it has one of [:], [/], [@]
    or an uppercase letter. *)
Theorem extracted_images_are_tokens {W : Type} (self : Scanner W)
    (content image : string) :
  image ∈ extract_base_images self content →
  is_token image
  ∧ (has_delimiter image = true ∨ Str.any_upper image = true)
  ∧ ∃ line, line ∈ Str.split newline content
            ∧ is_comment line = false ∧ from_line line image.
Proof. apply extracted_image_shape. Qed.

Lemma extracted_images_are_tokens_witness :
  is_token "node:18".
Proof.
  refine (proj1 (extracted_images_are_tokens Demo.scanner0
    "# build
FROM node:18 AS build" "node:18" _)).
  apply elem_of_extract_base_images. split; [|reflexivity].
  exists "FROM node:18 AS build". split.
  - vm_compute Str.split. apply list_elem_of_further, list_elem_of_here.
  - split; vm_compute; reflexivity.
Defined.

(** A single FROM line: with the keyword in any letter case, an optional
    platform flag and anything after the token, the result is the token
    alone, or nothing when the token has none of [:], [/], [@] and no
    uppercase letter. *)
Theorem extract_single_from_line {W : Type} (self : Scanner W)
    (ws kw sp flag image rest : string) :
  let line := ws +:+ kw +:+ sp +:+ flag +:+ image +:+ rest in
  Str.all Str.isspace ws = true →
  Str.lower kw = "from" →
  is_gap sp →
  platform_flag flag →
  is_token image →
  Str.stops (Re.in_class Re.NotSpace) rest = true →
  (flag = "" → Str.startswith "-" image = false) →
  Str.contains newline line = false →
  extract_base_images self line
  = if has_delimiter image || Str.any_upper image then {[ image ]} else ∅.
Proof.
  intros line Hws Hkw Hsp Hflag Himg Hrest Hdash Hnl.
  unfold extract_base_images, extract_lines.
  rewrite split_no_sep by done. simpl. unfold scan_line.
  subst line. rewrite from_line_not_comment by done.
  rewrite pattern_complete by done. simpl. rewrite keeps_eq.
  destruct (_ || _); [|done]. by rewrite (left_id_L ∅ (∪)).
Qed.

Lemma extract_single_from_line_witness :
  extract_base_images Demo.scanner0
    "  from --Platform=linux/arm64   Registry.example.com/app:1.2 as run"
  = {[ "Registry.example.com/app:1.2" ]}.
Proof.
  refine (extract_single_from_line Demo.scanner0
    "  " "from" " " "--Platform=linux/arm64   "
    "Registry.example.com/app:1.2" " as run" _ _ _ _ _ _ _ _);
    try done.
  right. by exists "--Platform=", "linux/arm64", "   ".
Defined.

Lemma fold_scan_line_union lines images :
  fold_left scan_line lines images
  = images ∪ fold_left scan_line lines ∅.
Proof.
  apply set_eq. intros x.
  rewrite elem_of_union, !elem_of_fold_scan_line, elem_of_empty. tauto.
Qed.

Lemma extract_lines_app l1 l2 :
  extract_lines (l1 ++ l2) = extract_lines l1 ∪ extract_lines l2.
Proof.
  unfold extract_lines. rewrite fold_left_app. apply fold_scan_line_union.
Qed.

Lemma extract_join {W : Type} (self : Scanner W) (a b : string) :
  extract_base_images self (a +:+ String newline b)
  = extract_base_images self a ∪ extract_base_images self b
  ∧ extract_base_images self (a +:+ String newline b)
    = extract_base_images self (b +:+ String newline a)
  ∧ extract_base_images self (a +:+ String newline a)
    = extract_base_images self a.
Proof.
  assert (∀ x y, extract_base_images self (x +:+ String newline y)
                 = extract_base_images self x ∪ extract_base_images self y)
    as E.
  { intros x y. unfold extract_base_images.
    by rewrite split_app, extract_lines_app. }
  rewrite !E. split; [done|]. split; [apply (comm_L (∪))|].
  apply (idemp_L (∪)).
Qed.

(** The lines are scanned one by one: the images of two texts joined by a
    newline are the images of the one together with the images of the
    other, so the order of the parts and a repeated part do not matter. *)
Theorem extract_joined_texts {W : Type} (self : Scanner W) (a b : string) :
  extract_base_images self (a +:+ String newline b)
  = extract_base_images self a ∪ extract_base_images self b
  ∧ extract_base_images self (a +:+ String newline b)
    = extract_base_images self (b +:+ String newline a)
  ∧ extract_base_images self (a +:+ String newline a)
    = extract_base_images self a.
Proof. apply extract_join. Qed.

(** A line that is a comment, or that the FROM pattern does not match,
    adds nothing wherever it stands in the text. *)
Theorem extract_skips_line {W : Type} (self : Scanner W)
    (a line b : string) :
  Str.contains newline line = false →
  is_comment line = true ∨ Re.re_match pattern line true = None →
  extract_base_images self (a +:+ String newline (line +:+ String newline b))
  = extract_base_images self (a +:+ String newline b).
Proof.
  intros Hnl Hskip.
  assert (extract_base_images self line = ∅) as Hline.
  { unfold extract_base_images, extract_lines.
    rewrite split_no_sep by done. simpl. unfold scan_line.
    destruct Hskip as [-> | Hm]; [done|].
    destruct (is_comment line); [done|]. by rewrite Hm. }
  destruct (extract_join self a (line +:+ String newline b)) as [-> _].
  destruct (extract_join self line b) as [-> _].
  destruct (extract_join self a b) as [-> _].
  rewrite Hline. by rewrite (left_id_L ∅ (∪)).
Qed.

Lemma extract_skips_line_witness :
  extract_base_images Demo.scanner0
    ("FROM node:18" +:+ String newline
       ("  # FROM ubuntu:20.04" +:+ String newline "RUN make"))
  = extract_base_images Demo.scanner0
      ("FROM node:18" +:+ String newline "RUN make").
Proof.
  apply (extract_skips_line Demo.scanner0
           "FROM node:18" "  # FROM ubuntu:20.04" "RUN make").
  - reflexivity.
  - left. reflexivity.
Defined.

(** * Properties of the constructor *)

Lemma lstrip_char_split ch s :
  ∃ n, s = Str.repeat ch n +:+ Str.lstrip_char ch s
       ∧ Str.startswith (String ch "") (Str.lstrip_char ch s) = false.
Proof.
  induction s as [|c s (n & E & Hst)].
  - by exists 0.
  - simpl. destruct (Ascii.eqb c ch) eqn:Hc.
    + apply Ascii.eqb_eq in Hc as ->. exists (S n).
      simpl. rewrite app_cons. by rewrite <- E.
    + exists 0. split; [done|]. simpl.
      by rewrite Ascii.eqb_sym, Hc.
Qed.

Lemma repeat_snoc ch n :
  Str.repeat ch n +:+ String ch "" = String ch (Str.repeat ch n).
Proof. induction n as [|n IH]; [done|]. simpl. by rewrite app_cons, IH. Qed.

Lemma rev_cons_s c s : Str.rev (String c s) = Str.rev s +:+ String c "".
Proof.
  change (String c s) with (String c "" +:+ s). by rewrite rev_app_s.
Qed.

Lemma rev_repeat ch n : Str.rev (Str.repeat ch n) = Str.repeat ch n.
Proof.
  induction n as [|n IH]; [done|]. simpl.
  by rewrite rev_cons_s, IH, repeat_snoc.
Qed.

(** A new scanner holds no image, and its [base_url] is the given URL
    without the slashes at its end: it does not end with [/], and putting
    the slashes back gives the URL. *)
Theorem init_strips_slashes {W : Type} (url : string) (w : W) :
  base_images (init url w) = ∅
  ∧ session (init url w) = w
  ∧ (∃ n, url = base_url (init url w) +:+ Str.repeat "/" n)
  ∧ ¬ ∃ t, base_url (init url w) = t +:+ "/".
Proof.
  split; [done|]. split; [done|]. simpl. unfold Str.rstrip_char.
  destruct (lstrip_char_split "/" (Str.rev url)) as (n & E & Hst).
  remember (Str.lstrip_char "/" (Str.rev url)) as L eqn:HL. clear HL.
  split.
  - exists n. rewrite <- (rev_involutive_s url) at 1.
    by rewrite E, rev_app_s, rev_repeat.
  - intros [t Ht]. apply (f_equal Str.rev) in Ht.
    rewrite rev_involutive_s, rev_app_s in Ht.
    change (Str.rev "/") with "/" in Ht. by rewrite Ht in Hst.
Qed.

(** * Further properties of the traversal *)

Section Walk.

Context {W : Type}.
Variable send : request -> W -> option response * W.

Local Abbreviation Scanner := (Scanner W).
Local Abbreviation M := (@M W).

Lemma scan_walk fuel keys (s : Scanner) :
  scan send fuel keys s
  = match walk send fuel keys s with
    | Some (_, s') => Some (base_images s', s')
    | None => None
    end.
Proof.
  unfold scan, walk, bind.
  destruct (get_projects send fuel keys s) as [[projects s1]|]; [|done].
  by destruct (for_each projects (scan_project send fuel) s1) as [[[] s2]|].
Qed.

(** ** Relations that every step keeps *)

Section Lifted.

Variable P : Scanner → Scanner → Prop.
Hypothesis P_refl : ∀ s, P s s.
Hypothesis P_trans : ∀ s1 s2 s3, P s1 s2 → P s2 s3 → P s1 s3.
Hypothesis P_get : ∀ url params, Keeps P (session_get send url params).
Hypothesis P_update :
  ∀ content (s : Scanner),
    P s (with_images s
           (base_images s ∪ extract_lines (Str.split newline content))).

Lemma Keeps_ret {A} (a : A) : Keeps P (ret a : M A).
Proof. intros s b s' [= _ <-]. apply P_refl. Qed.

Lemma Keeps_bind {A B} (m : M A) (f : A → M B) :
  Keeps P m → (∀ a, Keeps P (f a)) → Keeps P (bind m f).
Proof.
  intros Hm Hf s b s'. unfold bind.
  destruct (m s) as [[a s1]|] eqn:E; [|done].
  intros E'. eapply P_trans; [eapply Hm, E|eapply Hf, E'].
Qed.

Lemma Keeps_url_of {A} (f : string → M A) :
  (∀ u, Keeps P (f u)) → Keeps P (url_of f).
Proof. intros H s a s' E. eapply H, E. Qed.

Lemma Keeps_for_each {A} (xs : list A) (body : A → M unit) :
  (∀ x, Keeps P (body x)) → Keeps P (for_each xs body).
Proof.
  intros H. induction xs as [|x xs IH]; simpl.
  - apply Keeps_ret.
  - apply Keeps_bind; [apply H|]. intros _. apply IH.
Qed.

Lemma Keeps_get_projects fuel keys : Keeps P (get_projects send fuel keys).
Proof.
  unfold get_projects. destruct (truthy keys); [apply Keeps_ret|].
  apply Keeps_url_of. intros u. generalize (@nil string) as acc.
  generalize (projects_url u) as url.
  induction fuel as [|fuel IH]; intros url acc; destruct url; simpl;
    try apply Keeps_ret; try (intros ? ? ?; discriminate).
  apply Keeps_bind; [apply P_get|].
  intros [resp|]; [|apply Keeps_ret].
  destruct (or_default true (isLastPage (json resp))); [apply Keeps_ret|].
  apply Keeps_url_of. intros u'. apply IH.
Qed.

Lemma Keeps_get_repositories fuel key :
  Keeps P (get_repositories send fuel key).
Proof.
  apply Keeps_url_of. intros u. generalize (@nil string) as acc.
  generalize (repos_url u key) as url.
  induction fuel as [|fuel IH]; intros url acc; destruct url; simpl;
    try apply Keeps_ret; try (intros ? ? ?; discriminate).
  apply Keeps_bind; [apply P_get|].
  intros [resp|]; [|apply Keeps_ret].
  destruct (or_default true (isLastPage (json resp))); [apply Keeps_ret|].
  apply Keeps_url_of. intros u'. apply IH.
Qed.

Lemma Keeps_fold_m {A B} (f : B → A → M B) xs b :
  (∀ b x, Keeps P (f b x)) → Keeps P (fold_m f xs b).
Proof.
  intros H. revert b. induction xs as [|x xs IH]; intros b; simpl.
  - apply Keeps_ret.
  - apply Keeps_bind; [apply H|]. intros b'. apply IH.
Qed.

Lemma Keeps_search_dockerfiles key slug :
  Keeps P (search_dockerfiles send key slug).
Proof.
  apply Keeps_bind; [|intros; apply Keeps_ret].
  apply Keeps_fold_m. intros b x. apply Keeps_url_of. intros u.
  apply Keeps_bind; [apply P_get|].
  intros [resp|]; apply Keeps_ret.
Qed.

Lemma Keeps_scan_file key slug path : Keeps P (scan_file send key slug path).
Proof.
  apply Keeps_bind.
  - apply Keeps_url_of. intros u. apply Keeps_bind; [apply P_get|].
    intros [resp|]; apply Keeps_ret.
  - intros [|c content]; [apply Keeps_ret|].
    intros s a s' [= _ <-]. apply (P_update (String c content) s).
Qed.

Lemma Keeps_walk fuel keys : Keeps P (walk send fuel keys).
Proof.
  apply Keeps_bind; [apply Keeps_get_projects|]. intros projects.
  apply Keeps_for_each. intros key.
  apply Keeps_bind; [apply Keeps_get_repositories|]. intros repos.
  apply Keeps_for_each. intros slug.
  apply Keeps_bind; [apply Keeps_search_dockerfiles|].
  intros [|p ps]; [apply Keeps_ret|].
  apply Keeps_for_each. intros path. apply Keeps_scan_file.
Qed.

Lemma Keeps_scan fuel keys : Keeps P (scan send fuel keys).
Proof.
  intros s r s'. rewrite scan_walk.
  destruct (walk send fuel keys s) as [[[] s1]|] eqn:E; [|done].
  intros [= _ <-]. eapply Keeps_walk, E.
Qed.

End Lifted.

(** ** The images held do not steer the walk *)

Lemma Blind_ret {A} (a : A) : Blind (ret a : M A).
Proof.
  intros s X. unfold ret, with_images. simpl. by rewrite (right_id_L ∅ (∪)).
Qed.

Lemma Blind_bind {A B} (m : M A) (f : A → M B) :
  Blind m → (∀ a, Blind (f a)) → Blind (bind m f).
Proof.
  intros Hm Hf s X. unfold bind. rewrite (Hm s X).
  destruct (m (with_images s ∅)) as [[a s0]|]; [|done].
  pose proof (Hf a s0 (base_images s0)) as H0.
  replace (with_images s0 (base_images s0)) with s0 in H0
    by by destruct s0.
  rewrite H0, (Hf a s0 (X ∪ base_images s0)).
  destruct (f a (with_images s0 ∅)) as [[b s1]|]; [|done].
  unfold with_images. simpl. by rewrite (assoc_L (∪)).
Qed.

Lemma Blind_url_of {A} (f : string → M A) :
  (∀ u, Blind (f u)) → Blind (url_of f).
Proof. intros H s X. unfold url_of. simpl. apply H. Qed.

Lemma Blind_session_get url params : Blind (session_get send url params).
Proof.
  intros s X. unfold session_get, with_images, with_session. simpl.
  destruct (send (url, params) (session s)) as [r w].
  simpl. by rewrite (right_id_L ∅ (∪)).
Qed.

Lemma Blind_update_base_images images :
  Blind (update_base_images images : M unit).
Proof.
  intros s X. unfold update_base_images, with_images. simpl.
  by rewrite (left_id_L ∅ (∪)).
Qed.

Lemma Blind_for_each {A} (xs : list A) (body : A → M unit) :
  (∀ x, Blind (body x)) → Blind (for_each xs body).
Proof.
  intros H. induction xs as [|x xs IH]; simpl.
  - apply Blind_ret.
  - apply Blind_bind; [apply H|]. intros _. apply IH.
Qed.

Lemma Blind_fold_m {A B} (f : B → A → M B) xs b :
  (∀ b x, Blind (f b x)) → Blind (fold_m f xs b).
Proof.
  intros H. revert b. induction xs as [|x xs IH]; intros b; simpl.
  - apply Blind_ret.
  - apply Blind_bind; [apply H|]. intros b'. apply IH.
Qed.

Lemma Blind_diverge {A} : Blind (diverge : M A).
Proof. by intros s X. Qed.

Lemma Blind_get_projects fuel keys : Blind (get_projects send fuel keys).
Proof.
  unfold get_projects. destruct (truthy keys); [apply Blind_ret|].
  apply Blind_url_of. intros u. generalize (@nil string) as acc.
  generalize (projects_url u) as url.
  induction fuel as [|fuel IH]; intros url acc; destruct url; simpl;
    try apply Blind_ret; try apply Blind_diverge.
  apply Blind_bind; [apply Blind_session_get|].
  intros [resp|]; [|apply Blind_ret].
  destruct (or_default true (isLastPage (json resp))); [apply Blind_ret|].
  apply Blind_url_of. intros u'. apply IH.
Qed.

Lemma Blind_get_repositories fuel key :
  Blind (get_repositories send fuel key).
Proof.
  apply Blind_url_of. intros u. generalize (@nil string) as acc.
  generalize (repos_url u key) as url.
  induction fuel as [|fuel IH]; intros url acc; destruct url; simpl;
    try apply Blind_ret; try apply Blind_diverge.
  apply Blind_bind; [apply Blind_session_get|].
  intros [resp|]; [|apply Blind_ret].
  destruct (or_default true (isLastPage (json resp))); [apply Blind_ret|].
  apply Blind_url_of. intros u'. apply IH.
Qed.

Lemma Blind_search_dockerfiles key slug :
  Blind (search_dockerfiles send key slug).
Proof.
  apply Blind_bind; [|intros; apply Blind_ret].
  apply Blind_fold_m. intros b x. apply Blind_url_of. intros u.
  apply Blind_bind; [apply Blind_session_get|].
  intros [resp|]; apply Blind_ret.
Qed.

Lemma Blind_scan_file key slug path : Blind (scan_file send key slug path).
Proof.
  apply Blind_bind.
  - apply Blind_url_of. intros u.
    apply Blind_bind; [apply Blind_session_get|].
    intros [resp|]; apply Blind_ret.
  - intros [|c content]; [apply Blind_ret|].
    intros s X. apply (Blind_update_base_images _ s X).
Qed.

Lemma Blind_walk fuel keys : Blind (walk send fuel keys).
Proof.
  apply Blind_bind; [apply Blind_get_projects|]. intros projects.
  apply Blind_for_each. intros key.
  apply Blind_bind; [apply Blind_get_repositories|]. intros repos.
  apply Blind_for_each. intros slug.
  apply Blind_bind; [apply Blind_search_dockerfiles|].
  intros [|p ps]; [apply Blind_ret|].
  apply Blind_for_each. intros path. apply Blind_scan_file.
Qed.

Lemma scan_held (fuel : nat) (keys : option (list string))
    (s : Scanner) :
  scan send fuel keys s
  = match scan send fuel keys (with_images s ∅) with
    | Some (found, s0) =>
        Some (base_images s ∪ found,
              with_images s0 (base_images s ∪ found))
    | None => None
    end.
Proof.
  rewrite !scan_walk.
  pose proof (Blind_walk fuel keys s (base_images s)) as H0.
  replace (with_images s (base_images s)) with s in H0 by by destruct s.
  rewrite H0.
  by destruct (walk send fuel keys (with_images s ∅)) as [[[] s0]|].
Qed.

(** What [scan] returns is what the scanner held before together with
    what the same scan returns on a scanner that holds nothing; whether it
    returns, and how it leaves the remote side, does not depend on the
    images held. *)
Theorem scan_adds_to_held (fuel : nat) (keys : option (list string))
    (s : Scanner) :
  scan send fuel keys s
  = match scan send fuel keys (with_images s ∅) with
    | Some (found, s0) =>
        Some (base_images s ∪ found,
              with_images s0 (base_images s ∪ found))
    | None => None
    end.
Proof. apply scan_held. Qed.

(** ** A remote side that requests do not change *)

Lemma unchanging_scan_session fuel keys (s s' : Scanner) r :
  unchanging send →
  scan send fuel keys s = Some (r, s') → session s' = session s.
Proof.
  intros Hu. revert s r s'.
  apply (Keeps_scan (λ s s' : Scanner, session s' = session s)).
  - done.
  - intros s1 s2 s3 ? ?. congruence.
  - intros url params s a s'. unfold session_get.
    pose proof (Hu (url, params) (session s)) as E.
    destruct (send (url, params) (session s)) as [o w]. simpl in E.
    by intros [= _ <-].
  - done.
Qed.

(** On a remote side that requests do not change, the same scan run again
    returns the same set and leaves the scanner as it was: nothing is added
    the second time. *)
Theorem rescan_adds_nothing (fuel : nat) (keys : option (list string))
    (s s' : Scanner) (r : gset string) :
  unchanging send →
  scan send fuel keys s = Some (r, s') →
  scan send fuel keys s' = Some (r, s').
Proof.
  intros Hu H1.
  pose proof (unchanging_scan_session _ _ _ _ _ Hu H1) as Hses.
  pose proof (scan_inv send _ _ _ _ _ H1) as [Hr [Hurl _]].
  rewrite scan_held in H1. rewrite scan_held.
  assert (with_images s' ∅ = with_images s ∅) as ->.
  { unfold with_images. by rewrite Hurl, Hses. }
  destruct (scan send fuel keys (with_images s ∅)) as [[found s0]|]; [|done].
  injection H1 as E1 E2. rewrite <- Hr, <- E1.
  rewrite <- (assoc_L (∪)), (idemp_L (∪) found). by rewrite E2.
Qed.

(** ** The images held are tokens *)

Lemma token_no_newline t : is_token t → Str.contains newline t = false.
Proof.
  intros [_ Ht]. unfold Str.all in Ht. unfold Str.contains.
  apply not_true_is_false. intros (c & Hin & Hc)%existsb_exists.
  apply Ascii.eqb_eq in Hc as <-.
  rewrite forallb_forall in Ht. by specialize (Ht _ Hin).
Qed.

Lemma scan_keeps_tokens fuel keys :
  Keeps (λ s s' : Scanner,
           (∀ x, x ∈ base_images s → is_token x) →
           ∀ x, x ∈ base_images s' → is_token x)
        (scan send fuel keys).
Proof.
  apply Keeps_scan.
  - done.
  - intros s1 s2 s3 H12 H23 H. by apply H23, H12.
  - intros url params s a s'. unfold session_get.
    destruct (send (url, params) (session s)) as [o w]. by intros [= _ <-].
  - intros content s Hs x. simpl. rewrite elem_of_union.
    intros [?|Hx]; [by apply Hs|].
    by apply (extracted_image_shape s content x).
Qed.

(** When every image the scanner holds is a token (not empty, no
    whitespace), so is every image that [scan] returns. *)
Theorem scan_returns_tokens (fuel : nat) (keys : option (list string))
    (s s' : Scanner) (r : gset string) :
  (∀ x, x ∈ base_images s → is_token x) →
  scan send fuel keys s = Some (r, s') →
  ∀ x, x ∈ r → is_token x.
Proof.
  intros Hs H1. pose proof (scan_inv send _ _ _ _ _ H1) as [-> _].
  by apply (scan_keeps_tokens fuel keys s _ s' H1).
Qed.

(** ** The repository listing on a remote side that answers by request *)

(** Where the answer depends on the request alone, [get_repositories]
    returns only when its first request fails or its first page is the
    last one, and then with the items of that one page: it never returns
    more than the first page. *)
Theorem get_repositories_first_page_only (fuel : nat) (key : string)
    (s s' : Scanner) (l : list string) :
  request_determined send →
  get_repositories send fuel key s = Some (l, s') →
  let first := send (repos_url (base_url s) key, limit 100) (session s) in
  l = listed first.1
  ∧ s' = with_session s first.2
  ∧ ∀ resp, first.1 = Some resp →
            or_default true (isLastPage (json resp)) = true.
Proof.
  intros Hd. unfold get_repositories, url_of.
  destruct fuel as [|fuel].
  { by destruct (repos_url_cons (base_url s) key) as (c & u & ->). }
  rewrite get_repositories_loop_step.
  2:{ by destruct (repos_url_cons (base_url s) key) as (c & u & ->). }
  destruct (send _ (session s)) as [[resp|] w] eqn:E; simpl.
  - destruct (or_default true (isLastPage (json resp))) eqn:Hl.
    + intros [= <- <-]. repeat split. by intros ? [= <-].
    + rewrite (get_repositories_loop_repeats send fuel key (base_url s));
        [done|done|].
      intros w0. pose proof (Hd (repos_url (base_url s) key, limit 100)
                               w0 (session s)) as E0.
      rewrite E in E0. simpl in E0.
      destruct (send _ w0) as [o w1]. simpl in E0. subst o.
      exists resp, w1. split; [done|].
      by destruct (isLastPage (json resp)) as [[]|].
  - intros [= <- <-]. by repeat split.
Qed.

(** ** The two passes of the locator *)

(** Where the answer depends on the request alone, the second pass of
    [search_dockerfiles] finds what the first has found: the result is the
    set of Dockerfile paths of the first answer. *)
Theorem search_dockerfiles_second_pass (key slug : string) (s : Scanner) :
  request_determined send →
  let req := (files_url (base_url s) key slug, limit 1000) in
  let pass1 := send req (session s) in
  let pass2 := send req pass1.2 in
  search_dockerfiles send key slug s
  = Some (list_of_set (List.filter is_dockerfile (listed pass1.1)),
          with_session s pass2.2).
Proof.
  intros Hd req pass1 pass2. rewrite search_dockerfiles_eq.
  fold req. fold pass1. fold pass2.
  replace (pass2.1) with (pass1.1) by apply Hd.
  unfold list_of_set. by rewrite list_to_set_app_L, (idemp_L (∪)).
Qed.

(** ** What the listing loops return *)

Lemma get_projects_loop_reads fuel url acc (s : Scanner) l s' :
  get_projects_loop send fuel url acc s = Some (l, s')
  ↔ ∃ pages w',
      reads send [] (next_projects (base_url s)) url (session s) pages w'
      ∧ (length pages ≤ fuel)%nat
      ∧ l = acc ++ concat pages ∧ s' = with_session s w'.
Proof.
  split.
  - revert url acc s. induction fuel as [|fuel IH]; intros url acc s.
    + destruct url; [|done]. intros [= <- <-]. exists [], (session s).
      split; [constructor|]. split; [done|].
      split; [by rewrite app_nil_r|by destruct s].
    + destruct url as [|c u].
      { intros [= <- <-]. exists [], (session s).
        split; [constructor|]. split; [simpl; lia|].
        split; [by rewrite app_nil_r|by destruct s]. }
      rewrite get_projects_loop_step by done.
      destruct (send (String c u, []) (session s)) as [[resp|] w] eqn:E.
      * simpl. destruct (or_default true (isLastPage (json resp))) eqn:Hl.
        -- intros [= <- <-]. eexists [_], w.
           split; [by eapply reads_last|]. split; [simpl; lia|].
           split; [|done]. simpl. by rewrite app_nil_r.
        -- intros (pages & w' & Hr & Hlen & -> & ->)%IH.
           eexists (_ :: pages), w'.
           split; [by eapply reads_next|]. split; [simpl; lia|].
           split; [|done]. simpl. by rewrite app_assoc.
      * intros [= <- <-]. exists [[]], w.
        split.
        { replace w with (send (String c u, []) (session s)).2
            by by rewrite E.
          apply reads_fail; [done|by rewrite E]. }
        split; [simpl; lia|]. split; [|done]. by rewrite app_nil_r.
  - intros (pages & w' & Hr & Hlen & -> & ->).
    remember (next_projects (base_url s)) as next eqn:Hnext.
    remember (session s) as w eqn:Hw.
    revert fuel acc s Hnext Hw Hlen.
    induction Hr as [w|url w Hu Hf|url w resp w' Hu E Hl
                     |url w resp w' pages w'' Hu E Hl Hr IH];
      intros fuel acc s Hnext Hw Hlen.
    + subst w. destruct fuel; simpl; rewrite app_nil_r; by destruct s.
    + destruct fuel as [|fuel]; [simpl in Hlen; lia|].
      rewrite get_projects_loop_step by done. subst w.
      destruct (send (url, []) (session s)) as [[resp|] w]; [done|].
      simpl. by rewrite app_nil_r.
    + destruct fuel as [|fuel]; [simpl in Hlen; lia|].
      rewrite get_projects_loop_step by done. subst w.
      rewrite E. simpl. rewrite Hl. simpl. by rewrite app_nil_r.
    + destruct fuel as [|fuel]; [simpl in Hlen; lia|].
      rewrite get_projects_loop_step by done. subst w.
      rewrite E. simpl. rewrite Hl.
      subst next. unfold next_projects in IH.
      rewrite (IH fuel _ (with_session s w')); [|done|done|simpl in Hlen; lia].
      simpl. by rewrite app_assoc.
Qed.

Lemma get_repositories_loop_reads fuel key url acc (s : Scanner) l s' :
  get_repositories_loop send fuel key url acc s = Some (l, s')
  ↔ ∃ pages w',
      reads send (limit 100) (next_repositories (base_url s) key)
        url (session s) pages w'
      ∧ (length pages ≤ fuel)%nat
      ∧ l = acc ++ concat pages ∧ s' = with_session s w'.
Proof.
  split.
  - revert url acc s. induction fuel as [|fuel IH]; intros url acc s.
    + destruct url; [|done]. intros [= <- <-]. exists [], (session s).
      split; [constructor|]. split; [done|].
      split; [by rewrite app_nil_r|by destruct s].
    + destruct url as [|c u].
      { intros [= <- <-]. exists [], (session s).
        split; [constructor|]. split; [simpl; lia|].
        split; [by rewrite app_nil_r|by destruct s]. }
      rewrite get_repositories_loop_step by done.
      destruct (send (String c u, limit 100) (session s))
        as [[resp|] w] eqn:E.
      * simpl. destruct (or_default true (isLastPage (json resp))) eqn:Hl.
        -- intros [= <- <-]. eexists [_], w.
           split; [by eapply reads_last|]. split; [simpl; lia|].
           split; [|done]. simpl. by rewrite app_nil_r.
        -- intros (pages & w' & Hr & Hlen & -> & ->)%IH.
           eexists (_ :: pages), w'.
           split; [by eapply reads_next|]. split; [simpl; lia|].
           split; [|done]. simpl. by rewrite app_assoc.
      * intros [= <- <-]. exists [[]], w.
        split.
        { replace w with (send (String c u, limit 100) (session s)).2
            by by rewrite E.
          apply reads_fail; [done|by rewrite E]. }
        split; [simpl; lia|]. split; [|done]. by rewrite app_nil_r.
  - intros (pages & w' & Hr & Hlen & -> & ->).
    remember (next_repositories (base_url s) key) as next eqn:Hnext.
    remember (session s) as w eqn:Hw.
    revert fuel acc s Hnext Hw Hlen.
    induction Hr as [w|url w Hu Hf|url w resp w' Hu E Hl
                     |url w resp w' pages w'' Hu E Hl Hr IH];
      intros fuel acc s Hnext Hw Hlen.
    + subst w. destruct fuel; simpl; rewrite app_nil_r; by destruct s.
    + destruct fuel as [|fuel]; [simpl in Hlen; lia|].
      rewrite get_repositories_loop_step by done. subst w.
      destruct (send (url, limit 100) (session s)) as [[resp|] w]; [done|].
      simpl. by rewrite app_nil_r.
    + destruct fuel as [|fuel]; [simpl in Hlen; lia|].
      rewrite get_repositories_loop_step by done. subst w.
      rewrite E. simpl. rewrite Hl. simpl. by rewrite app_nil_r.
    + destruct fuel as [|fuel]; [simpl in Hlen; lia|].
      rewrite get_repositories_loop_step by done. subst w.
      rewrite E. simpl. rewrite Hl.
      subst next. unfold next_repositories in IH.
      rewrite (IH fuel _ (with_session s w')); [|done|done|simpl in Hlen; lia].
      simpl. by rewrite app_assoc.
Qed.

(** [get_projects] without a list of keys returns exactly when the run of
    its requests comes to an end within the bound: from the projects URL,
    each next URL being [base_url] followed by the [nextPageStart] of the
    answer, until an answer is the last page (or says nothing about it), a
    request fails, or the URL is empty. It then returns the items of all
    the answers, in order, in one list. *)
Theorem get_projects_reads (fuel : nat) (s s' : Scanner)
    (l : list string) :
  get_projects send fuel None s = Some (l, s')
  ↔ ∃ pages w',
      reads send [] (next_projects (base_url s))
        (projects_url (base_url s)) (session s) pages w'
      ∧ (length pages ≤ fuel)%nat
      ∧ l = concat pages ∧ s' = with_session s w'.
Proof. apply (get_projects_loop_reads fuel _ [] s l s'). Qed.

(** [get_repositories] returns exactly when the run of its requests comes
    to an end within the bound; every request of the run is the same: the
    repositories URL with [limit=100]. It then returns the items of all
    the answers, in order, in one list. *)
Theorem get_repositories_reads (fuel : nat) (key : string)
    (s s' : Scanner) (l : list string) :
  get_repositories send fuel key s = Some (l, s')
  ↔ ∃ pages w',
      reads send (limit 100) (next_repositories (base_url s) key)
        (repos_url (base_url s) key) (session s) pages w'
      ∧ (length pages ≤ fuel)%nat
      ∧ l = concat pages ∧ s' = with_session s w'.
Proof. apply (get_repositories_loop_reads fuel key _ [] s l s'). Qed.

End Walk.

(** * Properties of the report *)

Lemma sorted_images_props (images : gset string) :
  Sorted String.le (Report.sorted_images images)
  ∧ NoDup (Report.sorted_images images)
  ∧ (∀ x, x ∈ Report.sorted_images images ↔ x ∈ images)
  ∧ length (Report.sorted_images images) = size images
  ∧ ∀ l, l ≡ₚ elements images →
         merge_sort String.le l = Report.sorted_images images.
Proof.
  unfold Report.sorted_images.
  pose proof (merge_sort_Permutation String.le (elements images)) as Hp.
  split; [apply (Sorted_merge_sort String.le)|].
  split; [rewrite Hp; apply NoDup_elements|].
  split; [intros x; by rewrite Hp, elem_of_elements|].
  split; [by rewrite Hp|].
  intros l Hl. apply (Sorted_unique String.le).
  - apply (Sorted_merge_sort String.le).
  - apply (Sorted_merge_sort String.le).
  - by rewrite Hp, merge_sort_Permutation.
Qed.

(** The sorted list has every image of the set once, in ascending order,
    and it is the same whatever the order in which the set is walked. *)
Theorem sorted_images_spec (images : gset string) :
  Sorted String.le (Report.sorted_images images)
  ∧ NoDup (Report.sorted_images images)
  ∧ (∀ x, x ∈ Report.sorted_images images ↔ x ∈ images)
  ∧ length (Report.sorted_images images) = size images
  ∧ ∀ l, l ≡ₚ elements images →
         merge_sort String.le l = Report.sorted_images images.
Proof. apply sorted_images_props. Qed.

Lemma concat_cons_cons sep x y l :
  String.concat sep (x :: y :: l) = x +:+ sep +:+ String.concat sep (y :: l).
Proof. reflexivity. Qed.

(** Lines without a newline, joined by newlines and split again, are the
    lines. *)
Lemma split_concat lines :
  lines ≠ [] →
  Forall (λ l, Str.contains newline l = false) lines →
  Str.split newline (String.concat (String newline "") lines) = lines.
Proof.
  intros Hne Hall. induction Hall as [|x l Hx Hl IH]; [done|].
  destruct l as [|y l]; [by apply split_no_sep|].
  rewrite concat_cons_cons.
  change (String newline "" +:+ ?t) with (String newline t).
  rewrite split_app, IH by done. by rewrite split_no_sep.
Qed.

Lemma report_lines (images : gset string) :
  images ≠ ∅ →
  (∀ x, x ∈ images → Str.contains newline x = false) →
  Str.split newline (Report.output_text images)
  = Report.sorted_images images
  ∧ Str.split newline (Report.written images)
    = Report.sorted_images images ++ [""]
  ∧ Report.output_text ∅ = ""
  ∧ Report.written ∅ = String newline "".
Proof.
  intros Hne Hnl.
  destruct (sorted_images_props images) as (_ & _ & Hin & Hlen & _).
  assert (Str.split newline (Report.output_text images)
          = Report.sorted_images images) as E.
  { apply split_concat.
    - intros H0. rewrite H0 in Hlen. simpl in Hlen. symmetry in Hlen.
      by apply size_empty_iff, leibniz_equiv in Hlen.
    - apply Forall_forall. intros x Hx. by apply Hnl, Hin. }
  split; [done|]. split; [|done].
  unfold Report.written. by rewrite split_app, E.
Qed.

(** The text of a set of images that is not empty and has no newline in
    any image reads back, line by line, as the sorted images; the text
    written to the file has one empty line more at its end. For the empty
    set the text is empty and the file holds one newline. *)
Theorem report_round_trip (images : gset string) :
  images ≠ ∅ →
  (∀ x, x ∈ images → Str.contains newline x = false) →
  Str.split newline (Report.output_text images)
  = Report.sorted_images images
  ∧ Str.split newline (Report.written images)
    = Report.sorted_images images ++ [""]
  ∧ Report.output_text ∅ = ""
  ∧ Report.written ∅ = String newline "".
Proof. apply report_lines. Qed.

(** * The properties on the small Bitbucket *)

Lemma Demo_unchanging : unchanging Demo.site.
Proof. by intros req w. Qed.

Lemma Demo_request_determined : request_determined Demo.site.
Proof. by intros req [] []. Qed.

(** What [main] writes after a scan on a new scanner that found at least
    one image: split at the newlines, the file is the sorted images, one a
    line, and one empty line at the end. *)
Theorem main_output_lines {W : Type}
    (send : request → W → option response * W) (fuel : nat)
    (keys : option (list string)) (url : string) (w : W)
    (r : gset string) (s' : Scanner W) :
  scan send fuel keys (init url w) = Some (r, s') →
  r ≠ ∅ →
  Str.split newline (Report.written r) = Report.sorted_images r ++ [""].
Proof.
  intros Hscan Hne. apply report_lines; [done|].
  intros x Hx. apply token_no_newline.
  pose proof (scan_inv send _ _ _ _ _ Hscan) as [Hr _]. subst r.
  apply (scan_keeps_tokens send fuel keys (init url w) _ s' Hscan); [|done].
  intros y Hy. by apply not_elem_of_empty in Hy.
Qed.

Lemma main_output_lines_witness :
  Str.split newline (Report.written {[ "node:18"; "node:18-slim" ]})
  = Report.sorted_images {[ "node:18"; "node:18-slim" ]} ++ [""].
Proof.
  apply (main_output_lines Demo.site 1 (Some ["P1"]) (Demo.base +:+ "/") tt
           {[ "node:18"; "node:18-slim" ]}
           (MkScanner Demo.base tt {[ "node:18"; "node:18-slim" ]})).
  - vm_compute. reflexivity.
  - vm_compute. discriminate.
Defined.

Lemma report_round_trip_witness :
  Str.split newline (Report.output_text {[ "b:1"; "a/x" ]}) = ["a/x"; "b:1"].
Proof.
  refine (proj1 (report_round_trip {[ "b:1"; "a/x" ]} _ _)).
  - vm_compute. discriminate.
  - intros x. rewrite elem_of_union, !elem_of_singleton.
    intros [-> | ->]; reflexivity.
Defined.

Lemma rescan_adds_nothing_witness :
  scan Demo.site 1 (Some ["P1"])
    (MkScanner Demo.base tt {[ "node:18"; "node:18-slim" ]})
  = Some ({[ "node:18"; "node:18-slim" ]},
          MkScanner Demo.base tt {[ "node:18"; "node:18-slim" ]}).
Proof.
  apply (rescan_adds_nothing Demo.site 1 (Some ["P1"]) Demo.scanner0).
  - exact Demo_unchanging.
  - vm_compute. reflexivity.
Defined.

Lemma scan_returns_tokens_witness : is_token "node:18-slim".
Proof.
  apply (scan_returns_tokens Demo.site 1 (Some ["P1"]) Demo.scanner0
           (MkScanner Demo.base tt {[ "node:18"; "node:18-slim" ]})
           {[ "node:18"; "node:18-slim" ]}).
  - intros x Hx. by apply not_elem_of_empty in Hx.
  - vm_compute. reflexivity.
  - rewrite elem_of_union, !elem_of_singleton. by right.
Defined.

Lemma get_repositories_first_page_only_witness :
  ["app"]
  = listed (Demo.site (repos_url (base_url Demo.scanner0) "P1", limit 100)
              (session Demo.scanner0)).1.
Proof.
  refine (proj1 (get_repositories_first_page_only Demo.site 1 "P1"
                   Demo.scanner0 Demo.scanner0 ["app"] _ _)).
  - exact Demo_request_determined.
  - vm_compute. reflexivity.
Defined.

Lemma search_dockerfiles_second_pass_witness :
  search_dockerfiles Demo.site "P1" "app" Demo.scanner0
  = Some (list_of_set
            (List.filter is_dockerfile
               (listed (Demo.site
                          (files_url (base_url Demo.scanner0) "P1" "app",
                           limit 1000) (session Demo.scanner0)).1)),
          Demo.scanner0).
Proof.
  exact (search_dockerfiles_second_pass Demo.site "P1" "app" Demo.scanner0
           Demo_request_determined).
Defined.

(** * What the methods leave alone *)

(** The listing methods and [get_file_content] change neither
    [self.base_url] nor [self.base_images], whatever the remote side
    answers; [scan] never changes [self.base_url]. *)
Theorem listings_leave_self {W : Type}
    (send : request → W → option response * W) :
  (∀ fuel keys, Frame (get_projects send fuel keys))
  ∧ (∀ fuel key, Frame (get_repositories send fuel key))
  ∧ (∀ key slug, Frame (search_dockerfiles send key slug))
  ∧ (∀ key slug path, Frame (get_file_content send key slug path))
  ∧ (∀ fuel keys,
        Keeps (λ s s' : Scanner W, base_url s' = base_url s)
          (scan send fuel keys)).
Proof.
  split; [intros; apply Frame_get_projects|].
  split; [intros; apply Frame_get_repositories|].
  split; [intros; apply Frame_search_dockerfiles|].
  split; [intros; apply Frame_get_file_content|].
  intros fuel keys s r s' [_ [? _]]%scan_inv. done.
Qed.
